(** * pyopenms-extra view widgets: peak finding, range reduction, labels

    A shallow embedding of the algorithmic parts of
    [src/view/TICWidget.py] and [src/view/ErrorWidget.py].

    Conventions of the embedding.
    - Retention times, m/z values, intensities and ppm errors are numpy
      floats in the source.  They are embedded as rationals [Q], compared
      with [Qcompare], so every finite float is represented exactly.
      Comparison, maximum, minimum, absolute value and negation are exact
      on floats; subtraction, multiplication and division round their
      result and are parameters of the embedding ([float_ops]).  NaN and
      the infinities are outside the model: a call that would go on with
      one of them ends in [NotFinite].
    - Indices are [nat]; a numpy array is a [list].
    - The Python dict [_peak_labels] keeps insertion order; it is embedded
      as an association list with dict update semantics.
    - Python exceptions are the constructors of [result]. *)

From Stdlib Require Import List Bool Arith ZArith QArith Qabs Qminmax.
From Stdlib Require Import Lia Lqa Sorted Permutation.
Import ListNotations.

Set Implicit Arguments.

(** ** Numeric helpers *)

(** [a < b], [a == b], [a > b] on floats, as one three-way comparison. *)
Definition Qltb (a b : Q) : bool :=
  match a ?= b with Lt => true | _ => false end.

(** The running peak value starts at [-np.inf]. *)
Inductive peak_value : Type :=
| NegInf : peak_value
| Val : Q -> peak_value.

Definition below (p : peak_value) (x : Q) : bool :=
  match p with
  | NegInf => true
  | Val v => Qltb v x
  end.

(** ** Floating-point arithmetic

    The source subtracts, multiplies and divides floats in IEEE 754
    arithmetic: the result is the exact result rounded to the format that
    numpy or Python gives it (binary64 for Python floats and float64
    arrays, binary32 for float32 arrays, and for mixed operands a format
    that depends on the numpy version).  The three operations are taken as
    they are, as functions on the finite floats. *)
Record float_ops : Type := mkOps {
  fsub : Q -> Q -> Q;
  fmul : Q -> Q -> Q;
  fdiv : Q -> Q -> Q
}.

(** What rounding keeps of the exact operations, in every format and
    rounding mode, as long as no result overflows: rounding is monotone,
    and 0, 1 and 100 are floats, so a result that is exactly one of them is
    not rounded. *)
Record ieee (o : float_ops) : Prop := mkIeee {
  fsub_le : forall a b x, a <= b -> fsub o a x <= fsub o b x;
  fsub_diag : forall x, fsub o x x == 0;
  fmul_le : forall a b c, 0 <= c -> a <= b -> fmul o a c <= fmul o b c;
  fmul_hundred : fmul o 1 100 == 100;
  fdiv_le : forall a b c, 0 < c -> a <= b -> fdiv o a c <= fdiv o b c;
  fdiv_diag : forall c, ~ c == 0 -> fdiv o c c == 1
}.

(** The operations on operands whose exact difference, product or quotient
    is a float again: nothing is rounded then.  The sample runs use such
    operands only, small integers and dyadic fractions. *)
Definition exact_ops : float_ops := mkOps Qminus Qmult Qdiv.

(** ** Outcomes of a call

    A call returns, or raises one of the exceptions of the modelled code,
    or goes on with a value that is no finite float (NaN or an infinity,
    after a division by zero) and that the embedding does not follow
    further. *)

Inductive result (A : Type) : Type :=
| Ok : A -> result A
| ValueError : result A
| IndexError : result A
| KeyError : result A
| NotFinite : result A.
Arguments Ok {A} _.
Arguments ValueError {A}.
Arguments IndexError {A}.
Arguments KeyError {A}.
Arguments NotFinite {A}.

Definition bind {A B} (r : result A) (k : A -> result B) : result B :=
  match r with
  | Ok a => k a
  | ValueError => ValueError
  | IndexError => IndexError
  | KeyError => KeyError
  | NotFinite => NotFinite
  end.

Notation "x <- r ;; k" := (bind r (fun x => k))
  (at level 61, r at next level, right associativity).

(** ** numpy array primitives *)

(** [arr[i]] for an index known to be in range. *)
Definition at_ (data : list Q) (i : nat) : Q := nth i data 0.

(** [arr[i]] with the bounds check made explicit. *)
Definition getitem {A} (arr : list A) (i : nat) : result A :=
  match nth_error arr i with
  | Some a => Ok a
  | None => IndexError
  end.

(** [arr[i] = v] on an array; the source only writes inside the bounds. *)
Fixpoint setitem {A} (arr : list A) (i : nat) (v : A) : list A :=
  match arr, i with
  | [], _ => []
  | _ :: t, O => v :: t
  | h :: t, S i' => h :: setitem t i' v
  end.

(** [np.where(arr)[0]]: the ascending indices of the non-zero entries. *)
Fixpoint where_from (i : nat) (arr : list bool) : list nat :=
  match arr with
  | [] => []
  | b :: t => if b then i :: where_from (S i) t else where_from (S i) t
  end.

Definition np_where (arr : list bool) : list nat := where_from 0 arr.

(** [arr[left:right]]. *)
Definition slice {A} (arr : list A) (left right : nat) : list A :=
  firstn (right - left) (skipn left arr).

(** [np.amax(arr, initial=i)]. *)
Definition amax_initial (arr : list Q) (i : Q) : Q := fold_left Qmax arr i.

(** [np.amin(arr)] and [np.amax(arr)]: a zero-size array raises. *)
Definition amin (arr : list Q) : result Q :=
  match arr with
  | [] => ValueError
  | h :: t => Ok (fold_left Qmin t h)
  end.

Definition amax (arr : list Q) : result Q :=
  match arr with
  | [] => ValueError
  | h :: t => Ok (fold_left Qmax t h)
  end.

(** [sorted(l, key=.., reverse=True)]: a stable sort into descending key
    order; elements with equal keys keep their original order. *)
Section StableSort.
Variable key : nat -> Q.

Fixpoint insert_desc (x : nat) (l : list nat) : list nat :=
  match l with
  | [] => [x]
  | y :: t => if Qltb (key x) (key y) then y :: insert_desc x t
              else x :: y :: t
  end.

Fixpoint sorted_desc (l : list nat) : list nat :=
  match l with
  | [] => []
  | x :: t => insert_desc x (sorted_desc t)
  end.
End StableSort.

(** [arr[i]] for a Python integer index: a negative index counts from the
    end, and an index outside the array raises. *)
Definition getitem_Z (arr : list Q) (i : Z) : result Q :=
  let n := Z.of_nat (length arr) in
  let i' := if (i <? 0)%Z then (i + n)%Z else i in
  if ((0 <=? i') && (i' <? n))%Z then Ok (at_ arr (Z.to_nat i'))
  else IndexError.

(** [v in arr] for a numpy array: some entry compares equal to [v]. *)
Definition contains (arr : list Q) (v : Q) : bool := existsb (Qeq_bool v) arr.

(** ** [numpy.searchsorted]

    numpy finds the insertion point by bisection: the search keeps a
    half-open candidate interval [min_idx, max_idx) and halves it, moving
    right while [arr[mid] < key] ([side="left"]) or [arr[mid] <= key]
    ([side="right"]).  The loop runs at most [len(arr)] times. *)
Inductive side : Type := SideLeft | SideRight.

Definition side_cmp (s : side) (a key : Q) : bool :=
  match s with
  | SideLeft => Qltb a key
  | SideRight => negb (Qltb key a)
  end.

Fixpoint bisect (s : side) (arr : list Q) (key : Q) (fuel : nat)
    (min_idx max_idx : nat) : nat :=
  match fuel with
  | O => min_idx
  | S fuel' =>
      if (min_idx <? max_idx)%nat then
        let mid_idx := (min_idx + (max_idx - min_idx) / 2)%nat in
        if side_cmp s (at_ arr mid_idx) key
        then bisect s arr key fuel' (S mid_idx) max_idx
        else bisect s arr key fuel' min_idx mid_idx
      else min_idx
  end.

Definition searchsorted (arr : list Q) (key : Q) (s : side) : nat :=
  bisect s arr key (length arr) 0 (length arr).

(** ** Python dict with integer keys, in insertion order *)
Section Dict.
Variable V : Type.

Definition dict : Type := list (nat * V).

(** [d[k] = v]: an existing key keeps its position. *)
Fixpoint dict_set (d : dict) (k : nat) (v : V) : dict :=
  match d with
  | [] => [(k, v)]
  | (k', v') :: t =>
      if (k' =? k)%nat then (k', v) :: t else (k', v') :: dict_set t k v
  end.

(** [d[k]]. *)
Fixpoint dict_get (d : dict) (k : nat) : option V :=
  match d with
  | [] => None
  | (k', v') :: t => if (k' =? k)%nat then Some v' else dict_get t k
  end.

(** [del d[k]]. *)
Definition dict_del (d : dict) (k : nat) : dict :=
  filter (fun kv => negb (fst kv =? k)%nat) d.
End Dict.

(** The x-axis range reported by the plot, [getAxis("bottom").range]: a
    two-element list [[lo, hi]]. *)
Definition axis_range : Type := (Q * Q)%type.

(** [x_range == [0, 1]]: the range of an axis that was never set. *)
Definition is_unset_range (x_range : axis_range) : bool :=
  Qeq_bool (fst x_range) 0 && Qeq_bool (snd x_range) 1.

(** [[np.amin(xs), np.amax(xs)]]. *)
Definition data_extent (xs : list Q) : result axis_range :=
  lo <- amin xs ;; hi <- amax xs ;; Ok (lo, hi).

(** * [src/view/ErrorWidget.py] *)
Module ErrorWidget.

Record t : Type := mk {
  _mzs : list Q;
  _ppm : list Q;
  currMaxY : option Q;            (* unset until the first autoscale *)
  yRange : option (Q * Q)         (* the last [setYRange] *)
}.

Definition _getMaxMassErrorInRange (self : t) (xrange : axis_range) : Q :=
  let left := searchsorted (_mzs self) (fst xrange) SideLeft in
  let right := searchsorted (_mzs self) (snd xrange) SideRight in
  amax_initial (map Qabs (slice (_ppm self) left right)) 1.

(** The body of [_autoscaleYAxis] once the window is fixed. *)
Definition rescale_to (self : t) (x_range : axis_range) : t :=
  let y := _getMaxMassErrorInRange self x_range in
  {| _mzs := _mzs self;
     _ppm := _ppm self;
     currMaxY := Some y;
     yRange := if Qeq_bool y 0 then yRange self else Some (y * (-1), y) |}.

Definition _autoscaleYAxis (self : t) (x_range : axis_range) : result t :=
  x_range' <- (if is_unset_range x_range
               then data_extent (_mzs self) else Ok x_range) ;;
  Ok (rescale_to self x_range').

(** *** The plotted items

    [ErrorWidget.t] holds the arrays the autoscale reads; the colors and
    what the plot shows are kept beside it. *)

(** A color of [_color_lib], an (r, g, b) tuple. *)
Definition color : Type := (Z * Z * Z)%type.

(** An entry of the list handed to [ScatterPlotItem.addPoints]. *)
Record spot : Type := mkSpot {
  pos : Q * Q;
  brush : color
}.

Record view : Type := mkView {
  widget : t;
  _color_lib : list color;
  scatter : list spot;            (* the points of all scatter items *)
  scatter_items : nat;            (* [addItem(scattergraph)] calls *)
  horizontal_lines : nat          (* [addItem(horizontalLine)] calls *)
}.

(** The loop of [_plotMassErrors]: every pass appends one entry to
    [points], hands the whole list to [addPoints] and adds the scatter
    item to the plot. *)
Fixpoint plot_loop (v : view) (points : list spot) (indices : list nat)
    : result view :=
  match indices with
  | [] => Ok v
  | i :: rest =>
      mz <- getitem (_mzs (widget v)) i ;;
      ppm <- getitem (_ppm (widget v)) i ;;
      c <- getitem (_color_lib v) i ;;
      let points' := points ++ [mkSpot (mz, ppm) c] in
      plot_loop
        (mkView (widget v) (_color_lib v) (scatter v ++ points')
                (S (scatter_items v)) (horizontal_lines v))
        points' rest
  end.

Definition _plotMassErrors (v : view) : result view :=
  plot_loop v [] (seq 0 (length (_ppm (widget v)))).

Definition _plotHorizontalLine (v : view) : view :=
  mkView (widget v) (_color_lib v) (scatter v) (scatter_items v)
         (S (horizontal_lines v)).

(** [redraw]; [x_range] is the range the bottom axis reports after
    [setXRange].  [plot(clear=True)] takes every item out of the plot. *)
Definition redraw (v : view) (x_range : axis_range) : result view :=
  let cleared := mkView (widget v) (_color_lib v) [] 0 0 in
  _ <- amin (_mzs (widget cleared)) ;;
  _ <- amax (_mzs (widget cleared)) ;;
  w <- _autoscaleYAxis (widget cleared) x_range ;;
  _plotMassErrors
    (_plotHorizontalLine
       (mkView w (_color_lib cleared) (scatter cleared)
               (scatter_items cleared) (horizontal_lines cleared))).

Definition setMassErrors (v : view) (mz ppm : list Q)
    (colors : list color) (x_range : axis_range) : result view :=
  redraw
    (mkView (mk mz ppm (currMaxY (widget v)) (yRange (widget v)))
            colors (scatter v) (scatter_items v) (horizontal_lines v))
    x_range.

End ErrorWidget.

(** * [src/view/TICWidget.py] *)
Module TICWidget.

(** A [pg.TextItem]: every constructed item is a distinct object. *)
Record TextItem : Type := mkText {
  item_id : nat;
  text : Q;                       (* formatted as "{0:.2f}" on screen *)
  pos_x : Q;
  pos_y : Q
}.

Record t : Type := mk {
  _peak_labels : dict TextItem;   (* label id -> {"label": item} *)
  _existTIC : bool;
  _rts : list Q;
  _ints : list Q;
  _peak_indices : list nat;
  _currentIntensitiesInRange : list Q;
  currMaxY : option Q;
  yRange : option (Q * Q);        (* the last [setYRange] *)
  items : list TextItem;          (* text items added to the plot *)
  curves : list (list Q * list Q);(* data items added to the plot *)
  next_id : nat                   (* identity of the next new object *)
}.

(** The widget after [__init__]. *)
Definition init : t :=
  {| _peak_labels := []; _existTIC := true; _rts := []; _ints := [];
     _peak_indices := []; _currentIntensitiesInRange := [];
     currMaxY := None; yRange := None; items := []; curves := [];
     next_id := 0 |}.

Definition set_peak_labels (self : t) (d : dict TextItem) : t :=
  mk d (_existTIC self) (_rts self) (_ints self) (_peak_indices self)
     (_currentIntensitiesInRange self) (currMaxY self) (yRange self)
     (items self) (curves self) (next_id self).

Definition set_items (self : t) (l : list TextItem) : t :=
  mk (_peak_labels self) (_existTIC self) (_rts self) (_ints self)
     (_peak_indices self) (_currentIntensitiesInRange self)
     (currMaxY self) (yRange self) l (curves self) (next_id self).

Definition set_curves (self : t) (c : list (list Q * list Q)) : t :=
  mk (_peak_labels self) (_existTIC self) (_rts self) (_ints self)
     (_peak_indices self) (_currentIntensitiesInRange self)
     (currMaxY self) (yRange self) (items self) c (next_id self).

Definition set_data (self : t) (rts ints : list Q) : t :=
  mk (_peak_labels self) (_existTIC self) rts ints (_peak_indices self)
     (_currentIntensitiesInRange self) (currMaxY self) (yRange self)
     (items self) (curves self) (next_id self).

(** *** Plot items: [addItem], [removeItem], [plot(clear=True)] *)

Definition addItem (self : t) (it : TextItem) : t :=
  set_items self (items self ++ [it]).

(** Removing an item that is not in the plot does nothing. *)
Definition removeItem (self : t) (it : TextItem) : t :=
  set_items self
    (filter (fun i => negb (item_id i =? item_id it)%nat) (items self)).

(** [self.plot(clear=True)] takes every item out of the plot and adds an
    empty data item. *)
Definition plot_clear (self : t) : t :=
  set_curves (set_items self []) [([], [])].

(** *** [checkExistTIC] *)
Definition checkExistTIC (self : t) : t :=
  if (length (_rts self) =? 0)%nat then
    mk (_peak_labels self) false (_rts self) (_ints self)
       (_peak_indices self) (_currentIntensitiesInRange self)
       (currMaxY self) (yRange self) (items self) (curves self)
       (next_id self)
  else self.

(** *** [_rts_in_min], [_relative_ints]

    [ops] is the arithmetic of the elements of the array at hand. *)
Definition _rts_in_min (ops : float_ops) (self : t) : t :=
  set_data self (map (fun x => fdiv ops x 60) (_rts self)) (_ints self).

(** With a greatest intensity of 0 numpy divides by zero, warns and fills
    the array with NaN and infinities. *)
Definition _relative_ints (ops : float_ops) (self : t) : result t :=
  maxInt <- amax (_ints self) ;;
  if Qeq_bool maxInt 0 then NotFinite
  else
    Ok (set_data self (_rts self)
          (map (fun x => fmul ops (fdiv ops x maxInt) 100) (_ints self))).

(** *** [_getMaxIntensityInRange] *)
Definition _getMaxIntensityInRange (self : t) (xrange : axis_range)
    : t * Q :=
  let left := searchsorted (_rts self) (fst xrange) SideLeft in
  let right := searchsorted (_rts self) (snd xrange) SideRight in
  (mk (_peak_labels self) (_existTIC self) (_rts self) (_ints self)
      (_peak_indices self) (slice (_ints self) left right)
      (currMaxY self) (yRange self) (items self) (curves self)
      (next_id self),
   amax_initial (slice (_ints self) left right) 1).

(** *** [_plot_tic] *)
Definition _plot_tic (self : t) : t :=
  set_curves self (curves self ++ [(_rts self, _ints self)]).

(** *** [_find_Peak] *)

(** How the inner [for j in range(indx, len(data))] loop ends. *)
Inductive scan : Type :=
| Exhausted : scan              (* ran off the end of the data *)
| Higher : nat -> scan          (* [peakValue < data[j]]: break *)
| Descent : nat -> scan.        (* [peakValue > data[j]]: mark and break *)

Fixpoint inner_loop (data : list Q) (peakValue : Q) (js : list nat) : scan :=
  match js with
  | [] => Exhausted
  | j :: js' =>
      match peakValue ?= at_ data j with
      | Lt => Higher j
      | Eq => inner_loop data peakValue js'
      | Gt => Descent j
      end
  end.

(** [range(a, b)]. *)
Definition range (a b : nat) : list nat := seq a (b - a).

(** [indx + np.floor(abs(indx - j) / 2)], cast to an integer. *)
Definition peakIndex (indx j : nat) : nat :=
  indx + Z.to_nat (Z.abs (Z.of_nat indx - Z.of_nat j) / 2).

(** One pass of the outer loop body.  The assignment [indx = j] changes the
    local variable read by the trailing [peakValue = data[indx]], but not
    the iteration: the next pass takes the next value of the range. *)
Definition outer_body (data : list Q) (st : peak_value * list bool)
    (indx : nat) : peak_value * list bool :=
  let '(peakValue, maxIndices) := st in
  if below peakValue (at_ data indx) then
    match inner_loop data (at_ data indx) (range indx (length data)) with
    | Descent j =>
        (Val (at_ data j), setitem maxIndices (peakIndex indx j) true)
    | Higher _ | Exhausted =>
        (Val (at_ data indx), maxIndices)
    end
  else (Val (at_ data indx), maxIndices).

Definition find_marks (data : list Q) : peak_value * list bool :=
  fold_left (outer_body data) (range 0 (length data))
            (NegInf, repeat false (length data)).

(** [data = self._ints]. *)
Definition _find_Peak (data : list Q) : list nat :=
  sorted_desc (at_ data) (np_where (snd (find_marks data))).

(** *** Labels

    The rendering surface is a collaborator: it measures the device
    rectangle of a text item ([mapRectToDevice(boundingRect())]), tests
    rectangles for intersection and reports the width of a pixel in data
    coordinates ([viewPixelSize()[0]]).  [arith] is the arithmetic of
    Python floats, in which the distance of two labels and its limit are
    computed. *)
Section Labels.
Variable Rect : Type.
Variable deviceRect : TextItem -> Rect.
Variable intersects : Rect -> Rect -> bool.
Variable pixel_width : Q.
Variable arith : float_ops.

Definition limit_distance : Q := fmul arith 20 pixel_width.

(** The body of [for exist_label in list(self._peak_labels)]; the
    result is the value of [clash] when the loop is left. *)
Fixpoint clash_loop (size : nat) (new_label : nat) (new : TextItem)
    (entries : dict TextItem) (clash : bool) : bool :=
  match entries with
  | [] => clash
  | (exist_label, existing) :: rest =>
      if negb (exist_label =? new_label)%nat then
        if negb (intersects (deviceRect new) (deviceRect existing)) then
          if Qltb (Qabs (fsub arith (pos_x new) (pos_x existing)))
                  limit_distance
          then true
          else clash_loop size new_label new rest false
        else true
      else
        if ((size =? 1) && (exist_label =? new_label))%nat
        then clash_loop size new_label new rest false
        else clash_loop size new_label new rest clash
  end.

(** [self._peak_labels[new_label]] is read in the loop body, for the
    first key that differs from [new_label]. *)
Definition _label_clashes (self : t) (label_id : nat) : result bool :=
  match _peak_labels self with
  | [] => Ok false
  | d =>
      match dict_get d label_id with
      | Some new => Ok (clash_loop (length d) label_id new d false)
      | None => KeyError
      end
  end.

Definition _remove_label (self : t) (label_id : nat) : result t :=
  match dict_get (_peak_labels self) label_id with
  | Some it =>
      let self' := removeItem self it in
      Ok (set_peak_labels self' (dict_del (_peak_labels self') label_id))
  | None => KeyError
  end.

(** The first half of [_add_label]: the new text item is created,
    stored under [label_id] and added to the plot. *)
Definition place_label (self : t) (label_id : nat) (label : TextItem)
    : t :=
  addItem
    (mk (dict_set (_peak_labels self) label_id label)
        (_existTIC self) (_rts self) (_ints self) (_peak_indices self)
        (_currentIntensitiesInRange self) (currMaxY self) (yRange self)
        (items self) (curves self) (S (next_id self)))
    label.

Definition _add_label (self : t) (label_id : nat)
    (label_text pos_x pos_y : Q) : result t :=
  let label := mkText (next_id self) label_text pos_x pos_y in
  let self' := place_label self label_id label in
  clash <- _label_clashes self' label_id ;;
  if clash then _remove_label self' label_id else Ok self'.

Definition _clear_labels (self : t) : t :=
  let self' :=
    fold_left (fun s entry => removeItem s (snd entry))
              (_peak_labels self) self in
  set_peak_labels self' [].

(** The loop of [_draw_peak_label] over [self._peak_indices]. *)
Fixpoint draw_loop (self : t) (indices : list nat) : result t :=
  match indices with
  | [] => Ok self
  | index :: rest =>
      y <- getitem (_ints self) index ;;
      if contains (_currentIntensitiesInRange self) y then
        x <- getitem (_rts self) index ;;
        self' <- _add_label self index x x y ;;
        draw_loop self' rest
      else draw_loop self rest
  end.

Definition _draw_peak_label (self : t) : result t :=
  match _peak_labels self with
  | [] => draw_loop self (_peak_indices self)
  | _ => Ok self
  end.

Definition _redrawLabels (self : t) : result t :=
  _draw_peak_label (_clear_labels self).

(** *** [_autoscaleYAxis]; [x_range] is the range the axis reports *)

(** The body of [_autoscaleYAxis] once the window is fixed. *)
Definition rescale_to (self : t) (x_range : axis_range) : result t :=
  let '(self1, y) := _getMaxIntensityInRange self x_range in
  let self2 :=
    mk (_peak_labels self1) (_existTIC self1) (_rts self1) (_ints self1)
       (_peak_indices self1) (_currentIntensitiesInRange self1)
       (Some y) (yRange self1) (items self1) (curves self1)
       (next_id self1) in
  if Qeq_bool y 0 then Ok self2
  else
    _redrawLabels
      (mk (_peak_labels self2) (_existTIC self2) (_rts self2)
          (_ints self2) (_peak_indices self2)
          (_currentIntensitiesInRange self2) (currMaxY self2)
          (Some (0, y)) (items self2) (curves self2) (next_id self2)).

Definition _autoscaleYAxis (self : t) (x_range : axis_range)
    : result t :=
  x_range' <- (if is_unset_range x_range
               then data_extent (_rts self) else Ok x_range) ;;
  rescale_to self x_range'.

(** *** [redrawPlot] *)
Definition redrawPlot (self : t) : result t :=
  _draw_peak_label (_plot_tic (plot_clear self)).

(** *** [setTIC]

    [chromatogram.get_peaks()] gives the retention times and the
    intensities, two arrays of one length, each with the arithmetic of its
    dtype ([rt_arith], [int_arith]); [x_range] is the range the bottom
    axis reports during the call. *)
Variable rt_arith : float_ops.
Variable int_arith : float_ops.

Definition setTIC (self : t) (chromatogram : list (Q * Q))
    (x_range : axis_range) : result t :=
  let self1 :=
    match _peak_labels self with
    | [] => self
    | _ => set_peak_labels (_clear_labels self) []
    end in
  let self2 :=
    set_data self1 (map fst chromatogram) (map snd chromatogram) in
  let self3 := checkExistTIC self2 in
  if _existTIC self3 then
    self4 <- _relative_ints int_arith (_rts_in_min rt_arith self3) ;;
    let self5 :=
      mk (_peak_labels self4) (_existTIC self4) (_rts self4)
         (_ints self4) (_find_Peak (_ints self4))
         (_currentIntensitiesInRange self4) (currMaxY self4)
         (yRange self4) (items self4) (curves self4) (next_id self4) in
    self6 <- _autoscaleYAxis self5 x_range ;;
    redrawPlot self6
  else Ok self3.

End Labels.

(** *** [_calculate_closest_datapoint]

    [ops] is the arithmetic in which a retention time and the clicked
    coordinate are subtracted. *)
Definition _calculate_closest_datapoint (ops : float_ops) (self : t)
    (point_x : Q) : result Z :=
  let larger_idx := Z.of_nat (searchsorted (_rts self) point_x SideLeft) in
  let smaller_idx := 0%Z in
  let larger_idx :=
    if (larger_idx >=? Z.of_nat (length (_rts self)))%Z
    then (larger_idx - 1)%Z else larger_idx in
  let smaller_idx :=
    if (larger_idx >? 0)%Z then (larger_idx - 1)%Z else smaller_idx in
  at_larger <- getitem_Z (_rts self) larger_idx ;;
  at_smaller <- getitem_Z (_rts self) smaller_idx ;;
  if Qltb (Qabs (fsub ops at_larger point_x))
          (Qabs (fsub ops at_smaller point_x))
  then Ok larger_idx else Ok smaller_idx.

(** *** [_clicked]

    The event gives the scene position; the plot tells whether it lies
    inside [sceneBoundingRect()] ([inside]) and maps it to the view
    coordinate [mouse_x].  The result is the value emitted through
    [sigRTClicked], if any.  The later connection of the region's signal
    is wiring and has no counterpart here. *)
Definition _clicked (ops : float_ops) (self : t) (inside : bool)
    (mouse_x : Q) : result (option Q) :=
  if _existTIC self then
    if inside then
      closest_datapoint_idx <-
        _calculate_closest_datapoint ops self mouse_x ;;
      rt <- getitem_Z (_rts self) closest_datapoint_idx ;;
      Ok (Some rt)
    else Ok None
  else Ok None.

(** *** [_rtRegionBounds]

    [region_bounds] is what [self._region.getRegion()] reports; the result
    is the region that is set and emitted through
    [sigSeleRTRegionChangeFinished]. *)
Definition _rtRegionBounds (ops : float_ops) (self : t)
    (region_bounds : Q * Q) : result (Q * Q) :=
  let start_rg := fst region_bounds in
  stop_rg_idx <-
    _calculate_closest_datapoint ops self (snd region_bounds) ;;
  stop_rg <- getitem_Z (_rts self) stop_rg_idx ;;
  Ok (start_rg, stop_rg).

End TICWidget.

(** * Predicates of the specification *)

Import TICWidget.

(** [i] comes before [j] in the output: a strictly larger value first, and
    among equal values the smaller index first. *)
Definition ranked_before (data : list Q) (i j : nat) : Prop :=
  at_ data j < at_ data i \/ (at_ data i == at_ data j /\ (i < j)%nat).

(** [r] is the larger of the floor value 1 and the greatest [f y] over the
    samples [(x, y)] with [lo <= x <= hi]. *)
Definition floored_window_max (xs ys : list Q) (f : Q -> Q) (lo hi r : Q)
    : Prop :=
  1 <= r /\
  (forall i, (i < length xs)%nat -> lo <= at_ xs i <= hi ->
             f (at_ ys i) <= r) /\
  (r = 1 \/
   exists i, (i < length xs)%nat /\ lo <= at_ xs i <= hi /\
             r = f (at_ ys i)) /\
  ((forall i, (i < length xs)%nat -> ~ (lo <= at_ xs i <= hi)) -> r = 1).

(** The reading of the specification: the greatest [f y] over the samples
    with [lo <= x < hi], and 1 when there is no such sample. *)
Definition half_open_window_max (xs ys : list Q) (f : Q -> Q) (lo hi r : Q)
    : Prop :=
  ((forall i, (i < length xs)%nat -> ~ (lo <= at_ xs i < hi)) -> r == 1) /\
  ((exists i, (i < length xs)%nat /\ lo <= at_ xs i < hi) ->
   (forall i, (i < length xs)%nat -> lo <= at_ xs i < hi ->
              f (at_ ys i) <= r) /\
   (exists i, (i < length xs)%nat /\ lo <= at_ xs i < hi /\
              r == f (at_ ys i))).

Definition minimum_of (xs : list Q) (m : Q) : Prop :=
  In m xs /\ forall x, In x xs -> m <= x.

Definition maximum_of (xs : list Q) (m : Q) : Prop :=
  In m xs /\ forall x, In x xs -> x <= m.

(** [x_range == [0, 1]]. *)
Definition unset_range (x_range : axis_range) : Prop :=
  fst x_range == 0 /\ snd x_range == 1.


(** The intensity plot after a rescale of the y-axis to the window [w]:
    the greatest intensity is the Range Reducer's value for [w], the
    y-axis runs from 0 to it, and the intensities in range are those of
    the samples between the two bisection positions of [w]. *)
Definition tic_rescaled (self : TICWidget.t) (w : axis_range)
    (s' : TICWidget.t) : Prop :=
  let y := snd (_getMaxIntensityInRange self w) in
  currMaxY s' = Some y /\
  yRange s' = Some (0, y) /\
  _currentIntensitiesInRange s'
    = slice (_ints self) (searchsorted (_rts self) (fst w) SideLeft)
            (searchsorted (_rts self) (snd w) SideRight) /\
  _rts s' = _rts self /\ _ints s' = _ints self.

Section Collision.
Variable Rect : Type.
Variable deviceRect : TextItem -> Rect.
Variable intersects : Rect -> Rect -> bool.
Variable pixel_width : Q.
Variable arith : float_ops.

(** The collision test between two labels: the device rectangles
    intersect, or they do not and the anchors are closer in x than
    20 pixels at the current scale; distance and limit are the floats the
    arithmetic gives for [new.x - other.x] and [20.0 * pixel_width]. *)
Definition collides (new other : TextItem) : Prop :=
  intersects (deviceRect new) (deviceRect other) = true \/
  (intersects (deviceRect new) (deviceRect other) = false /\
   Qabs (fsub arith (pos_x new) (pos_x other)) < fmul arith 20 pixel_width).

(** The new label clashes when it collides with a label stored under
    another id. *)
Definition clashes_with (labels : dict TextItem) (label_id : nat)
    (new : TextItem) : Prop :=
  exists k other, In (k, other) labels /\ k <> label_id /\
                  collides new other.
End Collision.

(** Taking the labels' items out of the plot touches nothing but the
    plot's text items. *)
Definition same_but_items (s s' : TICWidget.t) : Prop :=
  _peak_labels s' = _peak_labels s /\ _existTIC s' = _existTIC s /\
  _rts s' = _rts s /\ _ints s' = _ints s /\
  _peak_indices s' = _peak_indices s /\
  _currentIntensitiesInRange s' = _currentIntensitiesInRange s /\
  currMaxY s' = currMaxY s /\ yRange s' = yRange s /\
  curves s' = curves s /\ next_id s' = next_id s.

(** The rendering surface of the sample runs: labels never clash.  The
    chromatograms hold small integers whose quotients by 60 and by the
    greatest intensity are dyadic, so no operation of the runs rounds. *)
Definition sample_setTIC :=
  @setTIC unit (fun _ => tt) (fun _ _ => false) 0 exact_ops exact_ops
    exact_ops.
Definition sample_autoscale :=
  @_autoscaleYAxis unit (fun _ => tt) (fun _ _ => false) 0 exact_ops.

Definition first_chromatogram : list (Q * Q) :=
  [(60, 1); (120, 4); (180, 1)].
Definition second_chromatogram : list (Q * Q) :=
  [(60, 8); (120, 1); (180, 1); (240, 8); (300, 1)].

(** A first data set, an empty one, a second data set and then a change of
    the visible range; next to it the second data set on a fresh widget.
    The run reports the peak indices of the fresh widget, those after the
    first and after the third update, and the ids of the labels after the
    range change. *)
Definition sample_run
    : result (list nat * list nat * list nat * list nat) :=
  s1 <- sample_setTIC init first_chromatogram (0, 1) ;;
  s2 <- sample_setTIC s1 [] (1, 3) ;;
  s3 <- sample_setTIC s2 second_chromatogram (1, 3) ;;
  s4 <- sample_autoscale s3 (0, 400) ;;
  fresh <- sample_setTIC init second_chromatogram (0, 1) ;;
  Ok (_peak_indices fresh, _peak_indices s1, _peak_indices s3,
      map fst (_peak_labels s4)).

(** * [src/view/SequenceIonsWidget.py] *)

From Stdlib Require String Ascii.

Module SequenceIonsWidget.

(** The ions of a peptide: position -> list of ion names. *)
Definition ions : Type := dict (list String.string).

(** The state of an [observed_peptide]. *)
Record observed_peptide : Type := mkPep {
  sequence : String.string;
  seqLength : nat;
  suffix : ions;
  prefix : ions
}.

(** [observed_peptide.initUI]. *)
Definition initUI_pep : observed_peptide :=
  mkPep String.EmptyString 0 [] [].

Definition setSequence (pep : observed_peptide) (seq : String.string)
    : observed_peptide :=
  mkPep seq (String.length seq) (suffix pep) (prefix pep).

Definition setSuffix_pep (pep : observed_peptide) (lst : ions)
    : observed_peptide :=
  mkPep (sequence pep) (seqLength pep) lst (prefix pep).

Definition setPrefix_pep (pep : observed_peptide) (lst : ions)
    : observed_peptide :=
  mkPep (sequence pep) (seqLength pep) (suffix pep) lst.

(** The class attributes [HEIGHT], [WIDTH] and [SUFFIX_HEIGHT]: one copy
    for all widgets. *)
Record sizes : Type := mkSizes {
  HEIGHT : Q;
  WIDTH : Q;
  SUFFIX_HEIGHT : Q
}.

Definition class_sizes : sizes := mkSizes 0 0 0.

(** What the widget asks of the toolkit: the minimum size of the peptide
    and its own fixed height. *)
Record t : Type := mk {
  _pep : observed_peptide;
  minimumSize : Q * Q;
  fixedHeight : Q
}.

(** [len(d[key])] for a key of [d]. *)
Definition stack_size (d : ions) (key : nat) : nat :=
  match dict_get d key with
  | Some v => length v
  | None => 0
  end.

(** [max(keys, key=f)]: the first of the keys with the greatest [f]. *)
Fixpoint max_by (f : nat -> nat) (best : nat) (keys : list nat) : nat :=
  match keys with
  | [] => best
  | k :: rest =>
      if (f best <? f k)%nat then max_by f k rest else max_by f best rest
  end.

(** [len(d[max(d, key=lambda key: len(d[key]))])], and 1 for [{}]. *)
Definition max_ion (d : ions) : nat :=
  match d with
  | [] => 1%nat
  | (k0, _) :: rest => stack_size d (max_by (stack_size d) k0 (map fst rest))
  end.

(** [_resize]; [height_pep] and [height_ion] are the heights
    [QFontMetricsF] reports for the two fonts. *)
Definition _resize (height_pep height_ion : Q) (cls : sizes)
    (self : t) : sizes :=
  let n := inject_Z (Z.of_nat (seqLength (_pep self))) in
  let width :=
    if (seqLength (_pep self) =? 0)%nat then WIDTH cls
    else (n * 18) + (n - 1) * 8 in
  let max_ion_suff := inject_Z (Z.of_nat (max_ion (suffix (_pep self)))) in
  let max_ion_pre := inject_Z (Z.of_nat (max_ion (prefix (_pep self)))) in
  let height_ion_pre := height_ion * max_ion_pre + 15 in
  let suffix_height := height_ion * max_ion_suff + 5 in
  mkSizes (height_pep + height_ion_pre + suffix_height) width suffix_height.

Definition updateWindowSize (height_pep height_ion : Q)
    (st : sizes * t) : sizes * t :=
  let '(cls, self) := st in
  let cls' := _resize height_pep height_ion cls self in
  (cls', mk (_pep self) (WIDTH cls', HEIGHT cls') (HEIGHT cls')).

Definition setPeptide (height_pep height_ion : Q) (st : sizes * t)
    (seq : String.string) : sizes * t :=
  let '(cls, self) := st in
  updateWindowSize height_pep height_ion
    (cls, mk (setSequence (_pep self) seq) (minimumSize self)
             (fixedHeight self)).

Definition setSuffix (height_pep height_ion : Q) (st : sizes * t)
    (suff : ions) : sizes * t :=
  let '(cls, self) := st in
  updateWindowSize height_pep height_ion
    (cls, mk (setSuffix_pep (_pep self) suff) (minimumSize self)
             (fixedHeight self)).

Definition setPrefix (height_pep height_ion : Q) (st : sizes * t)
    (pre : ions) : sizes * t :=
  let '(cls, self) := st in
  updateWindowSize height_pep height_ion
    (cls, mk (setPrefix_pep (_pep self) pre) (minimumSize self)
             (fixedHeight self)).

(** [clear] assigns the three attributes directly; [seqLength] is left as
    it is. *)
Definition clear (st : sizes * t) : sizes * t :=
  let '(cls, self) := st in
  (cls, mk (mkPep String.EmptyString (seqLength (_pep self)) [] [])
           (minimumSize self) (fixedHeight self)).

(** [{i: seq[i] for i in range(0, len(seq))}]. *)
Definition dict_of_sequence (s : String.string) : dict Ascii.ascii :=
  combine (seq 0 (String.length s)) (String.list_ascii_of_string s).

(** [_getReverseIndex]: [list(dict_seq.keys())[-i]] for [i != 0]; a
    negative index counts from the end and raises beyond the first key. *)
Definition _getReverseIndex {V} (i : nat) (dict_seq : dict V)
    : result nat :=
  if (i =? 0)%nat then Ok 0%nat
  else
    let keys := map fst dict_seq in
    if (i <=? length keys)%nat then getitem keys (length keys - i)
    else IndexError.

End SequenceIonsWidget.

(** * Further predicates *)

(** [m] is a local maximum of [data]: the sample before it, if any, is not
    higher, and from [m] on the values stay equal until a strictly lower
    sample is met inside the data. *)
Definition local_max (data : list Q) (m : nat) : Prop :=
  ((0 < m)%nat -> at_ data (m - 1) <= at_ data m) /\
  exists j, (m < j < length data)%nat /\ at_ data j < at_ data m /\
            forall k, (m <= k < j)%nat -> at_ data k == at_ data m.

(** [m] is a strict peak of [data]: strictly above the sample before it, if
    any, and strictly above the sample after it, which exists. *)
Definition strict_peak (data : list Q) (m : nat) : Prop :=
  ((0 < m)%nat -> at_ data (m - 1) < at_ data m) /\
  (S m < length data)%nat /\ at_ data (S m) < at_ data m.

(** The running peak value when pass [i] starts: minus infinity before the
    first pass; afterwards a value of the data that is not above the sample
    before [i], and that lies below sample [i] only when that sample is not
    below its predecessor. *)
Definition peak_value_ok (data : list Q) (i : nat) (pv : peak_value)
    : Prop :=
  match pv with
  | NegInf => i = 0%nat
  | Val p =>
      (0 < i)%nat /\ p <= at_ data (i - 1) /\
      (p < at_ data i -> at_ data (i - 1) <= at_ data i)
  end.

Definition marks_ok (data : list Q) (i : nat) (marks : list bool) : Prop :=
  length marks = length data /\
  (forall m, nth m marks false = true -> local_max data m) /\
  (forall m, (m < i)%nat -> strict_peak data m ->
             nth m marks false = true).

(** The running peak value under a rescaling [f] of the data. *)
Definition map_peak_value (f : Q -> Q) (pv : peak_value) : peak_value :=
  match pv with
  | NegInf => NegInf
  | Val p => Val (f p)
  end.

(** [v] is a sample of [xs] nearest to [x] in computed distance: no
    sample [w] has a smaller [abs(w - x)], the difference being the float
    the arithmetic gives. *)
Definition nearest_sample (ops : float_ops) (xs : list Q) (x v : Q)
    : Prop :=
  In v xs /\
  forall w, In w xs -> Qabs (fsub ops v x) <= Qabs (fsub ops w x).

Section Apart.
Variable Rect : Type.
Variable deviceRect : TextItem -> Rect.
Variable intersects : Rect -> Rect -> bool.
Variable pixel_width : Q.
Variable arith : float_ops.

(** No label of the collection collides with a label under another id
    that was created before it. *)
Definition labels_apart (labels : dict TextItem) : Prop :=
  forall k1 l1 k2 l2,
    In (k1, l1) labels -> In (k2, l2) labels -> k1 <> k2 ->
    (item_id l1 < item_id l2)%nat ->
    ~ collides deviceRect intersects pixel_width arith l2 l1.
End Apart.

(** Every label of the collection was created before the next new
    object. *)
Definition ids_fresh (self : TICWidget.t) : Prop :=
  forall k l, In (k, l) (_peak_labels self) ->
              (item_id l < next_id self)%nat.

(** Two widget states with the same data: only labels, plot items and the
    object counter may differ. *)
Definition same_data (s s' : TICWidget.t) : Prop :=
  _existTIC s' = _existTIC s /\ _rts s' = _rts s /\ _ints s' = _ints s /\
  _peak_indices s' = _peak_indices s /\
  _currentIntensitiesInRange s' = _currentIntensitiesInRange s /\
  currMaxY s' = currMaxY s /\ yRange s' = yRange s /\
  curves s' = curves s.

(** The label under [k] annotates sample [k] of the widget's data. *)
Definition label_of_sample (self : TICWidget.t) (k : nat) (l : TextItem)
    : Prop :=
  (k < length (_rts self))%nat /\ (k < length (_ints self))%nat /\
  text l = at_ (_rts self) k /\ pos_x l = at_ (_rts self) k /\
  pos_y l = at_ (_ints self) k /\
  contains (_currentIntensitiesInRange self) (at_ (_ints self) k) = true.

(** A rendering surface for sample runs: rectangles never intersect and a
    pixel is one unit wide, so two labels collide when their anchors are
    less than 20 apart in x. *)
Definition sample_redraw :=
  @_redrawLabels unit (fun _ => tt) (fun _ _ => false) 1 exact_ops.

Definition sample_widget : TICWidget.t :=
  TICWidget.mk [] true [0; 10; 100] [5; 3; 4] [0; 1; 2]%nat [5; 3; 4]
    None None [] [] 0.

Definition sample_redrawn : TICWidget.t :=
  Eval vm_compute in
    match sample_redraw sample_widget with
    | Ok s => s
    | _ => sample_widget
    end.

Definition sample_autoscaled : TICWidget.t :=
  Eval vm_compute in
    match sample_autoscale sample_widget (0, 50) with
    | Ok s => s
    | _ => sample_widget
    end.

(** The entry of the scatter plot for sample [i]. *)
Definition spot_at (v : ErrorWidget.view) (i : nat) : ErrorWidget.spot :=
  ErrorWidget.mkSpot
    (at_ (ErrorWidget._mzs (ErrorWidget.widget v)) i,
     at_ (ErrorWidget._ppm (ErrorWidget.widget v)) i)
    (nth i (ErrorWidget._color_lib v) (0, 0, 0)%Z).

(** What passes [a], ..., [a + k - 1] of the plot loop hand to
    [addPoints]: in pass [j] the entries of the samples [0] to [j]. *)
Definition added_spots (v : ErrorWidget.view) (a k : nat)
    : list ErrorWidget.spot :=
  concat (map (fun j => map (spot_at v) (seq 0 (S j))) (seq a k)).

(** Closed comparisons of rationals, and sortedness of closed lists. *)
Ltac Qcmp := vm_compute; first [reflexivity | discriminate].
Ltac sorted_Q := repeat (constructor; try Qcmp).

(** * Properties *)

(** ** Comparison on values *)

Lemma Qltb_lt a b : Qltb a b = true <-> a < b.
Proof.
  unfold Qltb. rewrite Qlt_alt. destruct (a ?= b); split; congruence.
Qed.

Lemma Qltb_ge a b : Qltb a b = false <-> b <= a.
Proof.
  unfold Qltb. rewrite Qle_alt, <- (Qcompare_antisym a b).
  destruct (a ?= b); simpl; split; intro H;
    try discriminate; try reflexivity; exfalso; apply H; reflexivity.
Qed.

(** ** Sample runs of [_find_Peak] *)


Example find_Peak_ex1 : _find_Peak [1; 5; 3; 5; 1] = [1; 3]%nat.
Proof. reflexivity. Qed.

Example find_Peak_ex2 : _find_Peak [1; 2; 3] = [].
Proof. reflexivity. Qed.

Example find_Peak_ex3 : _find_Peak [3; 2; 1] = [0]%nat.
Proof. reflexivity. Qed.

Example find_Peak_ex4 : _find_Peak [1; 5; 5; 5; 1] = [2; 3]%nat.
Proof. reflexivity. Qed.

Example find_Peak_ex5 : _find_Peak [3] = [].
Proof. reflexivity. Qed.

(** ** Facts about the array primitives *)

Lemma where_from_repeat_false i n : where_from i (repeat false n) = [].
Proof.
  revert i. induction n as [|n IH]; intro i; simpl; [reflexivity|apply IH].
Qed.

Lemma where_from_lower i arr :
  Forall (fun k => (i <= k)%nat) (where_from i arr).
Proof.
  revert i. induction arr as [|b t IH]; intro i; simpl; [constructor|].
  assert (Ht : Forall (fun k => (i <= k)%nat) (where_from (S i) t)).
  { eapply Forall_impl; [|apply IH]. simpl. intros; lia. }
  destruct b; [constructor; [lia|exact Ht]|exact Ht].
Qed.

Lemma where_from_ascending i arr : StronglySorted lt (where_from i arr).
Proof.
  revert i. induction arr as [|b t IH]; intro i; simpl; [constructor|].
  destruct b; [|apply IH].
  constructor; [apply IH|].
  eapply Forall_impl; [|apply where_from_lower]. simpl. intros; lia.
Qed.

Lemma fold_seq_invariant {S : Type} (f : S -> nat -> S)
    (P : nat -> S -> Prop) k :
  forall a s0,
    (forall i s, (a <= i < a + k)%nat -> P i s -> P (Datatypes.S i) (f s i)) ->
    P a s0 -> P (a + k)%nat (fold_left f (seq a k) s0).
Proof.
  induction k as [|k IH]; intros a s0 Hstep H0; simpl.
  - now rewrite Nat.add_0_r.
  - rewrite <- Nat.add_succ_comm. apply IH.
    + intros i s Hi. apply Hstep. lia.
    + apply Hstep; [lia|exact H0].
Qed.

Lemma Sorted_adjacent {A} (R : A -> A -> Prop) (d : A) l :
  Sorted R l ->
  forall i, (S i < length l)%nat -> R (nth i l d) (nth (S i) l d).
Proof.
  induction 1 as [|a l Hs IH Hhd]; intros i Hi; simpl in Hi; [lia|].
  destruct i as [|i].
  - destruct l as [|b l]; simpl in *; [lia|]. now inversion Hhd.
  - change (R (nth i l d) (nth (S i) l d)). apply IH. lia.
Qed.

(** ** Facts about [_find_Peak] *)

Lemma compare_self (x : Q) : (x ?= x) = Eq.
Proof. apply Qeq_alt. reflexivity. Qed.

Lemma compare_lt (a b : Q) : a < b -> (a ?= b) = Lt.
Proof. intro H. apply Qlt_alt. exact H. Qed.

Lemma compare_gt (a b : Q) : b < a -> (a ?= b) = Gt.
Proof. intro H. apply Qgt_alt. exact H. Qed.

Lemma compare_eq (a b : Q) : a == b -> (a ?= b) = Eq.
Proof. intro H. apply Qeq_alt. exact H. Qed.

Lemma range_cons a b : (a < b)%nat -> range a b = a :: range (S a) b.
Proof.
  unfold range. intro H. replace (b - a)%nat with (S (b - S a)) by lia.
  reflexivity.
Qed.

Lemma range_nil a b : (b <= a)%nat -> range a b = [].
Proof. unfold range. intro H. now replace (b - a)%nat with 0%nat by lia. Qed.

Lemma inner_loop_plateau data v js :
  Forall (fun j => v == at_ data j) js -> inner_loop data v js = Exhausted.
Proof.
  induction 1 as [|j js Hj _ IH]; simpl; [reflexivity|].
  now rewrite (compare_eq Hj).
Qed.

(** A pass that is no candidate, or whose scan ends without a descent,
    leaves the marks alone. *)
Lemma outer_body_no_candidate data p marks indx :
  Qltb p (at_ data indx) = false ->
  outer_body data (Val p, marks) indx = (Val (at_ data indx), marks).
Proof. intro H. unfold outer_body. simpl. now rewrite H. Qed.

Lemma peakIndex_eq indx j :
  (indx <= j)%nat -> peakIndex indx j = (indx + (j - indx) / 2)%nat.
Proof.
  intro H. unfold peakIndex. f_equal.
  replace (Z.abs (Z.of_nat indx - Z.of_nat j)) with (Z.of_nat (j - indx))
    by lia.
  change 2%Z with (Z.of_nat 2). rewrite <- Nat2Z.inj_div. apply Nat2Z.id.
Qed.

(** What the inner loop has seen when it confirms a descent at [j]: a
    plateau at the candidate's value on every earlier position, and a
    strictly lower value at [j]. *)
Lemma inner_loop_descent data v k a j :
  inner_loop data v (seq a k) = Descent j ->
  (a <= j < a + k)%nat /\ at_ data j < v /\
  forall i, (a <= i < j)%nat -> at_ data i == v.
Proof.
  revert a. induction k as [|k IH]; intros a H; simpl in H; [discriminate|].
  destruct (v ?= at_ data a) eqn:E; try discriminate.
  - apply IH in H. destruct H as (Hj & Hlt & Hpl).
    split; [lia|]. split; [exact Hlt|].
    intros i Hi. destruct (Nat.eq_dec i a) as [->|Hne].
    + apply Qeq_alt in E. symmetry. exact E.
    + apply Hpl. lia.
  - injection H as <-. split; [lia|]. split.
    + apply Qgt_alt in E. exact E.
    + intros i Hi. lia.
Qed.

Lemma at_Forall (P : Q -> Prop) data i :
  Forall P data -> (i < length data)%nat -> P (at_ data i).
Proof. intros HF Hi. unfold at_. now apply Forall_nth. Qed.

Lemma in_range a b j : In j (range a b) -> (a <= j < b)%nat.
Proof. unfold range. rewrite in_seq. lia. Qed.

(** The marks after the whole outer loop, from an invariant of its body. *)
Lemma find_marks_invariant data (P : nat -> peak_value * list bool -> Prop) :
  P 0%nat (NegInf, repeat false (length data)) ->
  (forall i st, (i < length data)%nat -> P i st ->
                P (S i) (outer_body data st i)) ->
  P (length data) (find_marks data).
Proof.
  intros H0 Hstep. unfold find_marks, range. rewrite Nat.sub_0_r.
  apply (@fold_seq_invariant _ (outer_body data) P (length data) 0%nat).
  - intros i st Hi. apply Hstep. lia.
  - exact H0.
Qed.

Lemma find_Peak_unmarked data :
  snd (find_marks data) = repeat false (length data) -> _find_Peak data = [].
Proof.
  intro H. unfold _find_Peak, np_where. rewrite H, where_from_repeat_false.
  reflexivity.
Qed.

(** On a constant sequence every scan runs off the end. *)
Lemma find_marks_constant v data :
  Forall (fun x => x == v) data ->
  snd (find_marks data) = repeat false (length data).
Proof.
  intro Hc.
  pose (P := fun (_ : nat) (st : peak_value * list bool) =>
               snd st = repeat false (length data)).
  apply (find_marks_invariant data P); [reflexivity|].
  intros i [pv marks] Hi Hm. unfold P in *. simpl in Hm. subst marks.
  unfold outer_body.
  rewrite inner_loop_plateau.
  - now destruct (below pv (at_ data i)).
  - apply Forall_forall. intros j Hj. apply in_range in Hj.
    assert (Hi' := at_Forall Hc Hi). simpl in Hi'.
    assert (Hj' : at_ data j == v) by (apply (at_Forall Hc); lia).
    rewrite Hi', Hj'. reflexivity.
Qed.

(** On a strictly increasing sequence every scan meets a higher value, or
    the end of the data, right after the candidate. *)
Lemma inner_loop_rising data i :
  Sorted Qlt data -> (i < length data)%nat ->
  inner_loop data (at_ data i) (range i (length data)) = Exhausted \/
  inner_loop data (at_ data i) (range i (length data)) = Higher (S i).
Proof.
  intros Hs Hi. rewrite range_cons by exact Hi. cbn [inner_loop].
  rewrite compare_self.
  destruct (Nat.lt_ge_cases (S i) (length data)) as [Hlt|Hge].
  - right. rewrite range_cons by exact Hlt. cbn [inner_loop].
    assert (H : at_ data i < at_ data (S i))
      by (apply (Sorted_adjacent 0 Hs); exact Hlt).
    now rewrite (compare_lt H).
  - left. now rewrite range_nil.
Qed.

Lemma find_marks_increasing data :
  Sorted Qlt data -> snd (find_marks data) = repeat false (length data).
Proof.
  intro Hs.
  pose (P := fun (_ : nat) (st : peak_value * list bool) =>
               snd st = repeat false (length data)).
  apply (find_marks_invariant data P); [reflexivity|].
  intros i [pv marks] Hi Hm. unfold P in *. simpl in Hm. subst marks.
  unfold outer_body.
  destruct (inner_loop_rising Hs Hi) as [-> | ->];
    now destruct (below pv (at_ data i)).
Qed.

(** On a strictly decreasing sequence of two or more samples the first pass
    confirms a descent at index 1 and marks index 0; no later sample is a
    candidate. *)
Lemma find_marks_decreasing data :
  Sorted (fun a b => b < a) data -> (2 <= length data)%nat ->
  snd (find_marks data) = true :: repeat false (length data - 1).
Proof.
  intros Hs Hlen.
  pose (P := fun (i : nat) (st : peak_value * list bool) =>
     match i with
     | O => st = (NegInf, repeat false (length data))
     | S _ => snd st = true :: repeat false (length data - 1) /\
              exists p, fst st = Val p /\
                        ((i < length data)%nat -> at_ data i <= p)
     end).
  assert (Hfin : P (length data) (find_marks data)).
  { apply (find_marks_invariant data P); [reflexivity|].
    intros i [pv marks] Hi HP. destruct i as [|i]; unfold P in HP |- *.
    - injection HP as -> ->. unfold outer_body. simpl below. cbv iota.
      rewrite range_cons by lia. cbn [inner_loop]. rewrite compare_self.
      rewrite range_cons by lia. cbn [inner_loop].
      assert (H : at_ data 1 < at_ data 0)
        by (apply (Sorted_adjacent 0 Hs); lia).
      rewrite (compare_gt H). simpl. split.
      + destruct data as [|a [|b data]]; simpl in Hlen; try lia.
        reflexivity.
      + exists (at_ data 1). split; [reflexivity|]. intros _. apply Qle_refl.
    - destruct HP as (Hm & p & Hp & Hle). simpl in Hm, Hp. subst marks pv.
      rewrite outer_body_no_candidate by (apply Qltb_ge, Hle, Hi).
      simpl. split; [reflexivity|].
      exists (at_ data (S i)). split; [reflexivity|]. intro Hlt.
      apply Qlt_le_weak.
      apply (Sorted_adjacent 0 Hs). exact Hlt. }
  destruct (length data) as [|n] eqn:E; [lia|]. apply Hfin.
Qed.

(** The claim of C1 as the specification words it fails on [[1; 2; 3]]:
    the sequence is strictly increasing and no peak is returned. *)
Lemma find_Peak_increasing_last_index_fails :
  ~ (forall data : list Q,
       data <> [] -> Sorted Qlt data ->
       _find_Peak data = [(length data - 1)%nat]).
Proof.
  intro H. specialize (H [1; 2; 3]).
  assert (Hs : Sorted Qlt [1; 2; 3]) by (repeat constructor).
  specialize (H ltac:(discriminate) Hs). vm_compute in H. discriminate H.
Qed.

(** C1 (amended): the empty sequence yields no peak; a strictly increasing
    sequence yields no peak either, since no descent is ever confirmed; a
    strictly decreasing sequence of at least two samples yields exactly one
    peak, the first index. *)
Theorem find_Peak_monotonic :
  _find_Peak [] = [] /\
  (forall data, Sorted Qlt data -> _find_Peak data = []) /\
  (forall data, Sorted (fun a b => b < a) data -> (2 <= length data)%nat ->
                _find_Peak data = [0%nat]).
Proof.
  split; [reflexivity|]. split.
  - intros data Hs. apply find_Peak_unmarked, find_marks_increasing, Hs.
  - intros data Hs Hlen. unfold _find_Peak, np_where.
    rewrite (find_marks_decreasing Hs Hlen). simpl.
    now rewrite where_from_repeat_false.
Qed.

Lemma find_Peak_monotonic_witness :
  _find_Peak [1; 2; 3] = [] /\ _find_Peak [3; 2; 1] = [0%nat].
Proof.
  destruct find_Peak_monotonic as (_ & Hinc & Hdec). split.
  - apply Hinc. repeat constructor.
  - apply Hdec; [repeat constructor | simpl; lia].
Defined.

(** C10: on a non-empty constant sequence no index is marked, because no
    descent is ever confirmed. *)
Theorem find_Peak_constant (v : Q) (data : list Q) :
  data <> [] -> Forall (fun x => x == v) data -> _find_Peak data = [].
Proof.
  intros _ Hc. apply find_Peak_unmarked, (find_marks_constant Hc).
Qed.

Lemma find_Peak_constant_witness : _find_Peak [5; 5; 5] = [].
Proof.
  apply (find_Peak_constant (v := 5)); [discriminate|].
  repeat constructor; reflexivity.
Defined.

(** ** The order of the returned indices *)

Section StableSortFacts.
Variable key : nat -> Q.

Let R (i j : nat) : Prop :=
  key j < key i \/ (key i == key j /\ (i < j)%nat).

Lemma insert_desc_perm x l : Permutation (insert_desc key x l) (x :: l).
Proof.
  induction l as [|y t IH]; simpl; [apply Permutation_refl|].
  destruct (Qltb (key x) (key y)); [|apply Permutation_refl].
  eapply perm_trans; [apply perm_skip, IH|apply perm_swap].
Qed.

Lemma sorted_desc_perm l : Permutation (sorted_desc key l) l.
Proof.
  induction l as [|x t IH]; simpl; [constructor|].
  eapply perm_trans; [apply insert_desc_perm|apply perm_skip, IH].
Qed.

Lemma R_after_le x y z :
  key y <= key x -> R y z -> (x < z)%nat -> R x z.
Proof.
  unfold R. intros Hle [Hlt|[Heq Hyz]] Hxz.
  - left. eapply Qlt_le_trans; eassumption.
  - destruct (Qle_lt_or_eq _ _ Hle) as [Hlt|He].
    + left. rewrite <- Heq. exact Hlt.
    + right. split; [|exact Hxz]. rewrite <- Heq. symmetry. exact He.
Qed.

Lemma insert_desc_sorted x l :
  StronglySorted R l -> Forall (lt x) l ->
  StronglySorted R (insert_desc key x l).
Proof.
  induction l as [|y t IH]; intros HR Hlt; simpl.
  - repeat constructor.
  - apply StronglySorted_inv in HR. destruct HR as [HRt HRy].
    inversion Hlt as [|? ? Hxy Hxt]; subst.
    destruct (Qltb (key x) (key y)) eqn:E.
    + constructor.
      * apply IH; assumption.
      * apply Forall_forall. intros z Hz.
        apply (Permutation_in _ (insert_desc_perm x t)) in Hz.
        destruct Hz as [<-|Hz].
        -- left. apply Qltb_lt. exact E.
        -- rewrite Forall_forall in HRy. now apply HRy.
    + apply Qltb_ge in E.
      assert (Rxy : R x y).
      { destruct (Qle_lt_or_eq _ _ E) as [H|H]; [left; exact H|].
        right. split; [symmetry; exact H|exact Hxy]. }
      constructor; [constructor; assumption|].
      constructor; [exact Rxy|].
      apply Forall_forall. intros z Hz.
      rewrite Forall_forall in HRy, Hxt.
      apply (R_after_le (y := y)); auto.
Qed.

Lemma sorted_desc_sorted l :
  StronglySorted lt l -> StronglySorted R (sorted_desc key l).
Proof.
  induction l as [|x t IH]; intro Hs; simpl; [constructor|].
  apply StronglySorted_inv in Hs. destruct Hs as [Ht Hx].
  apply insert_desc_sorted; [now apply IH|].
  apply Forall_forall. intros z Hz. rewrite Forall_forall in Hx.
  apply Hx. now apply (Permutation_in _ (sorted_desc_perm t)).
Qed.
End StableSortFacts.

(** The midpoint rule of one pass: a candidate at [i] whose scan confirms a
    descent at [j] marks [i + floor((j - i) / 2)], a position on the
    plateau of the candidate's value, and nothing else. *)
Lemma outer_body_midpoint data pv marks i j :
  below pv (at_ data i) = true ->
  inner_loop data (at_ data i) (range i (length data)) = Descent j ->
  (snd (outer_body data (pv, marks) i)
     = setitem marks (i + (j - i) / 2)%nat true) /\
  (i <= i + (j - i) / 2 < j)%nat /\
  (at_ data (i + (j - i) / 2)%nat == at_ data i) /\
  (at_ data j < at_ data i).
Proof.
  intros Hb Hscan. unfold outer_body. rewrite Hb, Hscan. cbn [snd].
  unfold range in Hscan. apply inner_loop_descent in Hscan.
  destruct Hscan as (Hj & Hlt & Hpl).
  assert (Hij : (i < j)%nat).
  { destruct (Nat.eq_dec i j) as [<-|]; [|lia].
    exfalso. apply (Qlt_irrefl _ Hlt). }
  assert (Hmid : (i + (j - i) / 2 < j)%nat).
  { assert ((j - i) / 2 < j - i)%nat by (apply Nat.div_lt; lia). lia. }
  rewrite peakIndex_eq by lia.
  split; [reflexivity|]. split; [lia|]. split; [|exact Hlt].
  apply Hpl. lia.
Qed.

(** C5: on [[1; 5; 3; 5; 1]] both peaks of value 5 are returned, at the
    indices 1 and 3; and the output of the Peak Finder is always in
    descending order of intensity, indices of equal intensity in ascending
    index order. *)
Theorem find_Peak_two_equal_peaks :
  _find_Peak [1; 5; 3; 5; 1] = [1; 3]%nat /\
  forall data, StronglySorted (ranked_before data) (_find_Peak data).
Proof.
  split; [reflexivity|].
  intro data. unfold _find_Peak, np_where.
  apply (sorted_desc_sorted (at_ data)), where_from_ascending.
Qed.

(** C6: the plateau of [[1; 5; 5; 5; 1]] (indices 1 to 3) is one peak
    region, and the Peak Finder returns two indices for it: after the
    descent is confirmed at index 4 the outer loop goes on at index 2, not
    at index 4, and confirms the same descent again. *)
Theorem find_Peak_plateau_marked_twice :
  _find_Peak [1; 5; 5; 5; 1] = [2; 3]%nat /\
  snd (find_marks [1; 5; 5; 5; 1]) = [false; false; true; true; false].
Proof. split; reflexivity. Qed.

(** ** [numpy.searchsorted] *)

(** The bisection never leaves the interval it is given, whatever the
    array holds. *)
Lemma bisect_bounds s arr key fuel :
  forall lo hi, (lo <= hi)%nat ->
    (lo <= bisect s arr key fuel lo hi <= hi)%nat.
Proof.
  induction fuel as [|fuel IH]; intros lo hi Hle; cbn [bisect]; [lia|].
  destruct (lo <? hi)%nat eqn:E; [|lia].
  apply Nat.ltb_lt in E.
  assert (Hmid : (lo <= lo + (hi - lo) / 2 < hi)%nat).
  { assert ((hi - lo) / 2 < hi - lo)%nat by (apply Nat.div_lt; lia). lia. }
  destruct (side_cmp s (at_ arr (lo + (hi - lo) / 2)) key).
  - specialize (IH (S (lo + (hi - lo) / 2)) hi). lia.
  - specialize (IH lo (lo + (hi - lo) / 2)%nat). lia.
Qed.

(** The fuel only bounds the recursion: once it covers the interval, more
    of it changes nothing, so [searchsorted] is the loop run to its end. *)
Lemma bisect_fuel s arr key fuel :
  forall fuel' lo hi,
    (hi - lo <= fuel)%nat -> (hi - lo <= fuel')%nat ->
    bisect s arr key fuel lo hi = bisect s arr key fuel' lo hi.
Proof.
  induction fuel as [|fuel IH]; intros fuel' lo hi Hf Hf'.
  - destruct fuel' as [|fuel']; cbn [bisect]; [reflexivity|].
    destruct (lo <? hi)%nat eqn:E; [|reflexivity].
    apply Nat.ltb_lt in E. lia.
  - destruct fuel' as [|fuel']; cbn [bisect].
    + destruct (lo <? hi)%nat eqn:E; [|reflexivity].
      apply Nat.ltb_lt in E. lia.
    + destruct (lo <? hi)%nat eqn:E; [|reflexivity].
      apply Nat.ltb_lt in E.
      assert (Hmid : (lo <= lo + (hi - lo) / 2 < hi)%nat).
      { assert ((hi - lo) / 2 < hi - lo)%nat by (apply Nat.div_lt; lia).
        lia. }
      destruct (side_cmp s (at_ arr (lo + (hi - lo) / 2)) key);
        apply IH; lia.
Qed.

Lemma searchsorted_bounds arr key s :
  (searchsorted arr key s <= length arr)%nat.
Proof. unfold searchsorted. apply bisect_bounds. lia. Qed.

(** With a test that holds on a prefix of the positions and fails after
    it, the bisection returns the length of that prefix. *)
Lemma bisect_partition s arr key fuel :
  let p i := side_cmp s (at_ arr i) key in
  (forall i j, (i <= j < length arr)%nat -> p j = true -> p i = true) ->
  forall lo hi,
    (hi - lo <= fuel)%nat -> (lo <= hi <= length arr)%nat ->
    (forall i, (i < lo)%nat -> p i = true) ->
    (forall i, (hi <= i < length arr)%nat -> p i = false) ->
    let r := bisect s arr key fuel lo hi in
    (forall i, (i < r)%nat -> p i = true) /\
    (forall i, (r <= i < length arr)%nat -> p i = false).
Proof.
  intros p Hmono.
  induction fuel as [|fuel IH]; intros lo hi Hfuel Hle Hlo Hhi; cbn [bisect].
  - split; [exact Hlo|]. intros i Hi. apply Hhi. lia.
  - destruct (lo <? hi)%nat eqn:E.
    + apply Nat.ltb_lt in E.
      assert (Hmid : (lo <= lo + (hi - lo) / 2 < hi)%nat).
      { assert ((hi - lo) / 2 < hi - lo)%nat by (apply Nat.div_lt; lia).
        lia. }
      set (mid := (lo + (hi - lo) / 2)%nat) in *.
      destruct (side_cmp s (at_ arr mid) key) eqn:Ep.
      * apply IH; [lia|lia| |exact Hhi].
        intros i Hi. apply (Hmono i mid); [lia|exact Ep].
      * apply IH; [lia|lia|exact Hlo|].
        intros i Hi. destruct (p i) eqn:Epi; [|reflexivity].
        assert (Hc : p mid = true) by (apply (Hmono mid i); [lia|exact Epi]).
        unfold p in Hc. congruence.
    + apply Nat.ltb_ge in E. split; [exact Hlo|].
      intros i Hi. apply Hhi. lia.
Qed.

Lemma StronglySorted_nth {A} (R : A -> A -> Prop) (d : A) l :
  StronglySorted R l ->
  forall i j, (i < j < length l)%nat -> R (nth i l d) (nth j l d).
Proof.
  induction 1 as [|a l Hs IH Hall]; intros i j Hij; simpl in Hij; [lia|].
  destruct j as [|j]; [lia|]. destruct i as [|i]; simpl.
  - rewrite Forall_forall in Hall. apply Hall, nth_In. lia.
  - apply IH. lia.
Qed.

Lemma sorted_at_le arr i j :
  Sorted Qle arr -> (i <= j < length arr)%nat -> at_ arr i <= at_ arr j.
Proof.
  intros Hs Hij. destruct (Nat.eq_dec i j) as [->|Hne]; [apply Qle_refl|].
  apply Sorted_StronglySorted in Hs.
  - unfold at_. apply (StronglySorted_nth 0 Hs). lia.
  - intros x y z. apply Qle_trans.
Qed.

(** On a sorted array [side="left"] returns the number of entries below the
    key and [side="right"] the number of entries not above it. *)
Lemma searchsorted_left_spec arr key :
  Sorted Qle arr ->
  let r := searchsorted arr key SideLeft in
  (forall i, (i < r)%nat -> at_ arr i < key) /\
  (forall i, (r <= i < length arr)%nat -> key <= at_ arr i).
Proof.
  intros Hs r.
  destruct (@bisect_partition SideLeft arr key (length arr)) with
    (lo := 0%nat) (hi := length arr) as [H1 H2]; try lia.
  - simpl. intros i j Hij Hj. apply Qltb_lt in Hj. apply Qltb_lt.
    eapply Qle_lt_trans; [apply (sorted_at_le Hs Hij)|exact Hj].
  - split.
    + intros i Hi. apply Qltb_lt. apply (H1 i Hi).
    + intros i Hi. apply Qltb_ge. apply (H2 i Hi).
Qed.

Lemma searchsorted_right_spec arr key :
  Sorted Qle arr ->
  let r := searchsorted arr key SideRight in
  (forall i, (i < r)%nat -> at_ arr i <= key) /\
  (forall i, (r <= i < length arr)%nat -> key < at_ arr i).
Proof.
  intros Hs r.
  destruct (@bisect_partition SideRight arr key (length arr)) with
    (lo := 0%nat) (hi := length arr) as [H1 H2]; try lia.
  - simpl. intros i j Hij Hj.
    apply negb_true_iff, Qltb_ge in Hj. apply negb_true_iff, Qltb_ge.
    eapply Qle_trans; [apply (sorted_at_le Hs Hij)|exact Hj].
  - split.
    + intros i Hi. specialize (H1 i Hi). simpl in H1.
      apply negb_true_iff, Qltb_ge in H1. exact H1.
    + intros i Hi. specialize (H2 i Hi). simpl in H2.
      apply negb_false_iff, Qltb_lt in H2. exact H2.
Qed.

(** ** Slices and maxima *)

Lemma Qmax_cases (a b : Q) : Qmax a b = a \/ Qmax a b = b.
Proof.
  unfold Qmax, GenericMinMax.gmax. destruct (a ?= b); auto.
Qed.

Lemma amax_initial_spec arr :
  forall i,
    i <= amax_initial arr i /\
    (forall v, In v arr -> v <= amax_initial arr i) /\
    (amax_initial arr i = i \/ In (amax_initial arr i) arr).
Proof.
  unfold amax_initial.
  induction arr as [|a arr IH]; intro i; simpl.
  - split; [apply Qle_refl|]. split; [intros v []|now left].
  - destruct (IH (Qmax i a)) as (Hge & Hall & Hin).
    split; [|split].
    + eapply Qle_trans; [apply Q.le_max_l|exact Hge].
    + intros v [<-|Hv]; [|now apply Hall].
      eapply Qle_trans; [apply Q.le_max_r|exact Hge].
    + destruct Hin as [Hin|Hin]; [|now right; right].
      rewrite Hin. destruct (Qmax_cases i a) as [->| ->]; auto.
Qed.

Lemma slice_at (ys : list Q) left right i :
  (left <= i < right)%nat -> (i < length ys)%nat ->
  In (at_ ys i) (slice ys left right).
Proof.
  intros Hi Hlen. unfold slice, at_.
  replace i with (left + (i - left))%nat at 1 by lia.
  rewrite <- nth_skipn.
  replace (nth (i - left) (skipn left ys) 0)
    with (nth (i - left) (firstn (right - left) (skipn left ys)) 0).
  - apply nth_In. rewrite length_firstn, length_skipn. lia.
  - rewrite nth_firstn.
    destruct (i - left <? right - left)%nat eqn:E; [reflexivity|].
    apply Nat.ltb_ge in E. lia.
Qed.

Lemma In_slice (ys : list Q) left right v :
  In v (slice ys left right) ->
  exists i, (left <= i < right)%nat /\ (i < length ys)%nat /\ v = at_ ys i.
Proof.
  unfold slice, at_. intro Hin.
  destruct (In_nth _ _ 0 Hin) as (k & Hk & Hv).
  rewrite length_firstn, length_skipn in Hk.
  rewrite nth_firstn in Hv.
  destruct (k <? right - left)%nat eqn:E.
  - apply Nat.ltb_lt in E. rewrite nth_skipn in Hv.
    exists (left + k)%nat. repeat split; try lia. symmetry. exact Hv.
  - apply Nat.ltb_ge in E. lia.
Qed.

(** ** The Range Reducer *)

(** The samples of the slice are those of the closed window. *)
Lemma window_slice xs lo hi :
  Sorted Qle xs ->
  forall i, (i < length xs)%nat ->
    ((searchsorted xs lo SideLeft <= i < searchsorted xs hi SideRight)%nat
     <-> lo <= at_ xs i <= hi).
Proof.
  intros Hs i Hi.
  destruct (searchsorted_left_spec lo Hs) as [L1 L2].
  destruct (searchsorted_right_spec hi Hs) as [R1 R2].
  split.
  - intros [Hl Hr]. split; [apply L2; lia|apply R1; lia].
  - intros [Hl Hr]. split.
    + destruct (Nat.lt_ge_cases i (searchsorted xs lo SideLeft)) as [H|H];
        [|exact H].
      exfalso. apply (Qlt_irrefl lo).
      eapply Qle_lt_trans; [exact Hl|apply (L1 i), H].
    + destruct (Nat.lt_ge_cases i (searchsorted xs hi SideRight)) as [H|H];
        [exact H|].
      exfalso. apply (Qlt_irrefl hi).
      eapply Qlt_le_trans; [apply (R2 i); lia|exact Hr].
Qed.

Lemma window_max_correct xs ys (f : Q -> Q) lo hi :
  Sorted Qle xs -> length xs = length ys ->
  floored_window_max xs ys f lo hi
    (amax_initial
       (map f (slice ys (searchsorted xs lo SideLeft)
                        (searchsorted xs hi SideRight))) 1).
Proof.
  intros Hs Hlen.
  set (left := searchsorted xs lo SideLeft).
  set (right := searchsorted xs hi SideRight).
  destruct (amax_initial_spec (map f (slice ys left right)) 1)
    as (Hge & Hall & Hin).
  assert (Hcase :
    amax_initial (map f (slice ys left right)) 1 = 1 \/
    exists i, (i < length xs)%nat /\ lo <= at_ xs i <= hi /\
              amax_initial (map f (slice ys left right)) 1 = f (at_ ys i)).
  { destruct Hin as [Hin|Hin]; [now left|right].
    apply in_map_iff in Hin. destruct Hin as (v & Hv & Hin).
    apply In_slice in Hin. destruct Hin as (i & Hi & Hil & ->).
    exists i. split; [lia|]. split; [|now symmetry].
    apply (window_slice lo hi Hs); [lia|exact Hi]. }
  split; [exact Hge|]. split; [|split].
  - intros i Hi Hw. apply Hall, in_map, slice_at; [|lia].
    now apply (window_slice lo hi Hs).
  - exact Hcase.
  - intro Hnone. destruct Hcase as [H|(i & Hi & Hw & _)]; [exact H|].
    exfalso. exact (Hnone i Hi Hw).
Qed.

(** The claim of C2 as the specification words it fails for
    [x = [0; 1]], [y = [1; 5]] and the window [[0, 1]]: the sample at
    [x = 1] lies on the upper bound and is counted, so the result is 5 and
    not 1. *)
Lemma range_reducer_half_open_fails :
  ~ (forall (self : ErrorWidget.t) (lo hi : Q),
       Sorted Qle (ErrorWidget._mzs self) ->
       length (ErrorWidget._mzs self) = length (ErrorWidget._ppm self) ->
       half_open_window_max (ErrorWidget._mzs self) (ErrorWidget._ppm self)
         Qabs lo hi (ErrorWidget._getMaxMassErrorInRange self (lo, hi))).
Proof.
  intro H.
  specialize (H (ErrorWidget.mk [0; 1] [1; 5] None None) 0 1).
  simpl in H. specialize (H ltac:(sorted_Q) eq_refl).
  destruct H as [_ H]. destruct H as [_ (i & Hi & Hw & Hr)].
  - exists 0%nat. split; [simpl; lia|]. split; Qcmp.
  - destruct i as [|[|i]]; [| |simpl in Hi; lia].
    + vm_compute in Hr. discriminate Hr.
    + destruct Hw as [_ Hw]. vm_compute in Hw. discriminate Hw.
Qed.

(** C2 (amended): on a sorted x-sequence the Range Reducer returns the
    larger of the floor value 1 and the greatest absolute y-value (the
    greatest y-value for the intensity plot) among exactly the samples with
    [lo <= x <= hi], both bounds included; it is 1 when no sample is in the
    window; and on x = [0,1,2,3,4], y = [2,-7,3,-1,5], window [1,3] it
    is 7. *)
Theorem range_reducer_closed_window :
  (forall (self : ErrorWidget.t) (lo hi : Q),
     Sorted Qle (ErrorWidget._mzs self) ->
     length (ErrorWidget._mzs self) = length (ErrorWidget._ppm self) ->
     floored_window_max (ErrorWidget._mzs self) (ErrorWidget._ppm self)
       Qabs lo hi (ErrorWidget._getMaxMassErrorInRange self (lo, hi))) /\
  (forall (self : TICWidget.t) (lo hi : Q),
     Sorted Qle (_rts self) -> length (_rts self) = length (_ints self) ->
     floored_window_max (_rts self) (_ints self) (fun y => y) lo hi
       (snd (_getMaxIntensityInRange self (lo, hi)))) /\
  ErrorWidget._getMaxMassErrorInRange
    (ErrorWidget.mk [0; 1; 2; 3; 4] [2; -7; 3; -1; 5] None None) (1, 3) = 7.
Proof.
  split; [|split].
  - intros self lo hi Hs Hlen. unfold ErrorWidget._getMaxMassErrorInRange.
    simpl fst. simpl snd. now apply window_max_correct.
  - intros self lo hi Hs Hlen. unfold _getMaxIntensityInRange.
    cbn [fst snd].
    rewrite <- (map_id (slice (_ints self) _ _)).
    now apply window_max_correct.
  - reflexivity.
Qed.

Lemma range_reducer_closed_window_witness :
  floored_window_max [0; 1; 2; 3; 4] [2; -7; 3; -1; 5] Qabs 1 3
    (ErrorWidget._getMaxMassErrorInRange
       (ErrorWidget.mk [0; 1; 2; 3; 4] [2; -7; 3; -1; 5] None None) (1, 3))
  /\
  floored_window_max [0; 1; 2] [2; 100; 3] (fun y => y) 1 2
    (snd (_getMaxIntensityInRange
       (TICWidget.mk [] true [0; 1; 2] [2; 100; 3] [] [] None None [] [] 0)
       (1, 2))).
Proof.
  destruct range_reducer_closed_window as (He & Ht & _). split.
  - apply (He (ErrorWidget.mk [0; 1; 2; 3; 4] [2; -7; 3; -1; 5] None None));
      [simpl; sorted_Q | reflexivity].
  - apply (Ht (TICWidget.mk [] true [0; 1; 2] [2; 100; 3] [] [] None None
                 [] [] 0)); [simpl; sorted_Q | reflexivity].
Defined.

(** ** The window of the autoscale *)

Lemma Qmin_cases (a b : Q) : Qmin a b = a \/ Qmin a b = b.
Proof.
  unfold Qmin, GenericMinMax.gmin. destruct (a ?= b); auto.
Qed.

Lemma fold_Qmin_spec arr :
  forall i,
    fold_left Qmin arr i <= i /\
    (forall v, In v arr -> fold_left Qmin arr i <= v) /\
    (fold_left Qmin arr i = i \/ In (fold_left Qmin arr i) arr).
Proof.
  induction arr as [|a arr IH]; intro i; simpl.
  - split; [apply Qle_refl|]. split; [intros v []|now left].
  - destruct (IH (Qmin i a)) as (Hle & Hall & Hin).
    split; [|split].
    + eapply Qle_trans; [exact Hle|apply Q.le_min_l].
    + intros v [<-|Hv]; [|now apply Hall].
      eapply Qle_trans; [exact Hle|apply Q.le_min_r].
    + destruct Hin as [Hin|Hin]; [|now right; right].
      rewrite Hin. destruct (Qmin_cases i a) as [->| ->]; auto.
Qed.

Lemma amin_spec xs :
  xs <> [] -> exists m, amin xs = Ok m /\ minimum_of xs m.
Proof.
  destruct xs as [|h t]; [congruence|]. intros _.
  exists (fold_left Qmin t h). split; [reflexivity|].
  destruct (fold_Qmin_spec t h) as (Hle & Hall & Hin). split.
  - destruct Hin as [->|Hin]; [now left|now right].
  - intros x [<-|Hx]; [exact Hle|now apply Hall].
Qed.

Lemma amax_spec xs :
  xs <> [] -> exists m, amax xs = Ok m /\ maximum_of xs m.
Proof.
  destruct xs as [|h t]; [congruence|]. intros _.
  exists (fold_left Qmax t h). split; [reflexivity|].
  destruct (amax_initial_spec t h) as (Hle & Hall & Hin).
  unfold amax_initial in *. split.
  - destruct Hin as [->|Hin]; [now left|now right].
  - intros x [<-|Hx]; [exact Hle|now apply Hall].
Qed.

Lemma data_extent_spec xs :
  xs <> [] ->
  exists lo hi, data_extent xs = Ok (lo, hi) /\
                minimum_of xs lo /\ maximum_of xs hi.
Proof.
  intro Hne. destruct (amin_spec Hne) as (lo & Hlo & Hmin).
  destruct (amax_spec Hne) as (hi & Hhi & Hmax).
  exists lo, hi. unfold data_extent. rewrite Hlo, Hhi. simpl. auto.
Qed.

Lemma is_unset_range_iff x_range :
  is_unset_range x_range = true <-> unset_range x_range.
Proof.
  unfold is_unset_range, unset_range.
  rewrite andb_true_iff, !Qeq_bool_iff. reflexivity.
Qed.

(** ** The closest data point *)

Lemma getitem_Z_ok arr (i : Z) :
  (0 <= i < Z.of_nat (length arr))%Z ->
  getitem_Z arr i = Ok (at_ arr (Z.to_nat i)).
Proof.
  intro Hi. unfold getitem_Z.
  destruct (i <? 0)%Z eqn:E; [apply Z.ltb_lt in E; lia|].
  replace ((0 <=? i)%Z && (i <? Z.of_nat (length arr))%Z) with true;
    [reflexivity|].
  symmetry. apply andb_true_iff. split; [apply Z.leb_le|apply Z.ltb_lt]; lia.
Qed.

(** A key above every entry is placed after the last one, sorted array or
    not. *)
Lemma searchsorted_beyond arr key :
  Forall (fun x => x < key) arr ->
  searchsorted arr key SideLeft = length arr.
Proof.
  intro Hall.
  assert (Hp : forall i, (i < length arr)%nat ->
                 side_cmp SideLeft (at_ arr i) key = true).
  { intros i Hi. simpl. apply Qltb_lt. apply (at_Forall Hall Hi). }
  destruct (@bisect_partition SideLeft arr key (length arr)) with
    (lo := 0%nat) (hi := length arr) as [_ H2]; try lia.
  - intros i j Hij _. apply Hp. lia.
  - fold (searchsorted arr key SideLeft) in H2.
    assert (Hb := searchsorted_bounds arr key SideLeft).
    destruct (Nat.eq_dec (searchsorted arr key SideLeft) (length arr))
      as [E|E]; [exact E|].
    specialize (H2 (searchsorted arr key SideLeft) ltac:(lia)).
    rewrite Hp in H2 by lia. discriminate H2.
Qed.

(** The index the search computes on non-empty data: the bisection
    position, clamped to the last index, or the index before it,
    whichever sample is strictly closer in computed distance (the smaller
    index on a tie). *)
Lemma closest_datapoint_general (ops : float_ops) (self : TICWidget.t)
    (point_x : Q) :
  _rts self <> [] ->
  let n := length (_rts self) in
  let s := searchsorted (_rts self) point_x SideLeft in
  let larger := if (s =? n)%nat then (n - 1)%nat else s in
  let smaller := (larger - 1)%nat in
  (larger < n)%nat /\ (smaller <= larger)%nat /\
  _calculate_closest_datapoint ops self point_x
    = Ok (Z.of_nat
            (if Qltb (Qabs (fsub ops (at_ (_rts self) larger) point_x))
                     (Qabs (fsub ops (at_ (_rts self) smaller) point_x))
             then larger else smaller)).
Proof.
  intros Hne n s larger smaller.
  assert (Hn : (0 < n)%nat)
    by (unfold n; destruct (_rts self); [congruence|simpl; lia]).
  assert (Hb : (s <= n)%nat) by apply searchsorted_bounds.
  assert (Hl : (larger < n)%nat).
  { unfold larger. destruct (s =? n)%nat eqn:E; [lia|].
    apply Nat.eqb_neq in E. lia. }
  split; [exact Hl|]. split; [unfold smaller; lia|].
  unfold _calculate_closest_datapoint. fold s. fold n.
  replace (if (Z.of_nat s >=? Z.of_nat n)%Z
           then (Z.of_nat s - 1)%Z else Z.of_nat s)
    with (Z.of_nat larger).
  2:{ unfold larger. destruct (s =? n)%nat eqn:E.
      - apply Nat.eqb_eq in E. rewrite E.
        replace (Z.of_nat n >=? Z.of_nat n)%Z with true
          by (symmetry; rewrite Z.geb_leb; apply Z.leb_le; lia).
        lia.
      - apply Nat.eqb_neq in E.
        replace (Z.of_nat s >=? Z.of_nat n)%Z with false
          by (symmetry; rewrite Z.geb_leb; apply Z.leb_gt; lia).
        reflexivity. }
  replace (if (Z.of_nat larger >? 0)%Z
           then (Z.of_nat larger - 1)%Z else 0%Z)
    with (Z.of_nat smaller).
  2:{ unfold smaller. destruct (Z.of_nat larger >? 0)%Z eqn:E.
      - rewrite Z.gtb_ltb in E. apply Z.ltb_lt in E. lia.
      - rewrite Z.gtb_ltb in E. apply Z.ltb_ge in E. lia. }
  rewrite !getitem_Z_ok by (unfold smaller, n in *; lia).
  cbn [bind]. rewrite !Nat2Z.id.
  now destruct (Qltb _ _).
Qed.

(** The claim of C8 as the specification words it fails for the samples
    [[1; 3; 3]] and a click at 10: the search position 3 is clamped to the
    last index 2, but the two candidates are equally far from the click and
    the tie goes to the smaller index, so index 1 is returned and not the
    last index. *)
Lemma closest_datapoint_beyond_last_fails :
  ~ (forall (ops : float_ops) (self : TICWidget.t) (point_x : Q),
       _rts self <> [] ->
       Forall (fun x => x < point_x) (_rts self) ->
       _calculate_closest_datapoint ops self point_x
         = Ok (Z.of_nat (length (_rts self)) - 1)%Z).
Proof.
  intro H.
  specialize (H exact_ops
    (TICWidget.mk [] true [1; 3; 3] [5; 6; 7] [] [] None None [] [] 0) 10).
  assert (Hall : Forall (fun x => x < 10) [1; 3; 3])
    by (repeat constructor).
  specialize (H ltac:(discriminate) Hall).
  vm_compute in H. discriminate H.
Qed.

(** C8 (amended): on a non-empty sample sequence the closest-point search
    returns, for every clicked x-coordinate and whatever the arithmetic
    rounds, an index inside the sequence and never fails.  For a click
    beyond every sample the search position [len(rts)] is clamped to the
    last index; the search then returns the last index when that sample is
    the only one or is strictly nearer to the click, in computed distance,
    than the sample before it, and the index before the last
    otherwise. *)
Theorem closest_datapoint_in_bounds (ops : float_ops) (self : TICWidget.t)
    (point_x : Q) :
  _rts self <> [] ->
  let n := length (_rts self) in
  let dist := fun i => Qabs (fsub ops (at_ (_rts self) i) point_x) in
  exists idx : Z,
    _calculate_closest_datapoint ops self point_x = Ok idx /\
    (0 <= idx < Z.of_nat n)%Z /\
    (Forall (fun x => x < point_x) (_rts self) ->
     searchsorted (_rts self) point_x SideLeft = n /\
     ((idx = (Z.of_nat n - 1)%Z /\
       (n = 1%nat \/ dist (n - 1)%nat < dist (n - 2)%nat)) \/
      (idx = (Z.of_nat n - 2)%Z /\ (2 <= n)%nat /\
       dist (n - 2)%nat <= dist (n - 1)%nat))).
Proof.
  intros Hne n dist.
  destruct (closest_datapoint_general ops self point_x Hne)
    as (Hl & Hs & Hval).
  fold n in Hl, Hs, Hval.
  set (s := searchsorted (_rts self) point_x SideLeft) in *.
  set (larger := if (s =? n)%nat then (n - 1)%nat else s) in *.
  set (smaller := (larger - 1)%nat) in *.
  fold (dist larger) (dist smaller) in Hval.
  eexists. split; [exact Hval|].
  split; [destruct (Qltb (dist larger) (dist smaller)); lia|].
  intro Hall.
  assert (Hs_eq : s = n) by (now apply searchsorted_beyond).
  split; [exact Hs_eq|].
  assert (Hlarger : larger = (n - 1)%nat)
    by (unfold larger; rewrite Hs_eq, Nat.eqb_refl; reflexivity).
  assert (Hsmaller : smaller = (n - 2)%nat) by (unfold smaller; lia).
  rewrite Hlarger, Hsmaller.
  destruct (Qltb (dist (n - 1)%nat) (dist (n - 2)%nat)) eqn:Ec.
  - left. split; [lia|]. right. now apply Qltb_lt.
  - apply Qltb_ge in Ec.
    destruct (Nat.eq_dec n 1) as [E1|E1].
    + left. split; [lia|now left].
    + right. split; [lia|]. split; [lia|exact Ec].
Qed.

Lemma closest_datapoint_in_bounds_witness :
  exists idx : Z,
    _calculate_closest_datapoint exact_ops
      (TICWidget.mk [] true [1; 2; 3] [5; 6; 7] [] [] None None [] [] 0) 10
      = Ok idx /\
    (0 <= idx < 3)%Z /\ idx = 2%Z.
Proof.
  destruct (@closest_datapoint_in_bounds exact_ops
    (TICWidget.mk [] true [1; 2; 3] [5; 6; 7] [] [] None None [] [] 0) 10)
    as (idx & Hr & Hb & Hlast); [discriminate|].
  exists idx. split; [exact Hr|]. split; [exact Hb|].
  destruct Hlast as (_ & [[Hi _]|(_ & _ & Hd)]).
  - repeat constructor.
  - exact Hi.
  - vm_compute in Hd. exfalso. now apply Hd.
Defined.

(** ** The label dictionary *)

Section DictFacts.
Variable V : Type.
Implicit Types (d : dict V) (k : nat) (v : V).

Lemma dict_get_set_same d k v : dict_get (dict_set d k v) k = Some v.
Proof.
  induction d as [|[k' v'] d IH]; simpl.
  - now rewrite Nat.eqb_refl.
  - destruct (k' =? k)%nat eqn:E; simpl; rewrite E; [reflexivity|exact IH].
Qed.

Lemma dict_get_set_other d k k' v :
  k' <> k -> dict_get (dict_set d k v) k' = dict_get d k'.
Proof.
  intro Hne. induction d as [|[k0 v0] d IH]; simpl.
  - apply Nat.eqb_neq in Hne. rewrite Nat.eqb_sym in Hne. now rewrite Hne.
  - destruct (k0 =? k)%nat eqn:E; simpl.
    + apply Nat.eqb_eq in E. subst k0.
      destruct (k =? k')%nat eqn:E'; [|reflexivity].
      apply Nat.eqb_eq in E'. congruence.
    + destruct (k0 =? k')%nat; [reflexivity|exact IH].
Qed.

Lemma dict_get_del_same d k : dict_get (dict_del d k) k = None.
Proof.
  unfold dict_del. induction d as [|[k' v'] d IH]; simpl; [reflexivity|].
  destruct (k' =? k)%nat eqn:E; simpl; [exact IH|]. now rewrite E.
Qed.

Lemma dict_get_del_other d k k' :
  k' <> k -> dict_get (dict_del d k) k' = dict_get d k'.
Proof.
  intro Hne. unfold dict_del.
  induction d as [|[k0 v0] d IH]; simpl; [reflexivity|].
  destruct (k0 =? k)%nat eqn:E; simpl.
  - apply Nat.eqb_eq in E. subst k0.
    destruct (k =? k')%nat eqn:E'; [|exact IH].
    apply Nat.eqb_eq in E'. congruence.
  - destruct (k0 =? k')%nat; [reflexivity|exact IH].
Qed.

(** Storing under [k] leaves the entries under the other keys as they
    were. *)
Lemma dict_set_others d k v k' v' :
  k' <> k -> (In (k', v') (dict_set d k v) <-> In (k', v') d).
Proof.
  intro Hne. induction d as [|[k0 v0] d IH]; simpl.
  - split; [intros [H|[]]; congruence|intros []].
  - destruct (k0 =? k)%nat eqn:E; simpl.
    + apply Nat.eqb_eq in E. subst k0.
      split; (intros [H|H]; [congruence|now right]).
    + rewrite IH. reflexivity.
Qed.
End DictFacts.

(** ** Label placement *)

Section LabelFacts.
Variable Rect : Type.
Variable deviceRect : TextItem -> Rect.
Variable intersects : Rect -> Rect -> bool.
Variable pixel_width : Q.
Variable arith : float_ops.

Lemma clash_loop_spec size label_id new entries :
  clash_loop deviceRect intersects pixel_width arith size label_id new entries
    false = true
  <-> clashes_with deviceRect intersects pixel_width arith entries label_id new.
Proof.
  unfold clashes_with.
  induction entries as [|[k other] rest IH]; cbn [clash_loop].
  - split; [discriminate|]. intros (k & o & [] & _).
  - assert (Htail :
      (exists k' o, In (k', o) rest /\ k' <> label_id /\
                    collides deviceRect intersects pixel_width arith new o) ->
      exists k' o, In (k', o) ((k, other) :: rest) /\ k' <> label_id /\
                   collides deviceRect intersects pixel_width arith new o).
    { intros (k' & o & Hin & Hne & Hc). exists k', o. simpl. auto. }
    destruct (k =? label_id)%nat eqn:Ek; cbn [negb].
    + apply Nat.eqb_eq in Ek. subst k.
      replace (if ((size =? 1) && true)%nat
               then clash_loop deviceRect intersects pixel_width arith size
                      label_id new rest false
               else clash_loop deviceRect intersects pixel_width arith size
                      label_id new rest false)
        with (clash_loop deviceRect intersects pixel_width arith size
                label_id new rest false)
        by (now destruct ((size =? 1) && true)%nat).
      rewrite IH. split; [exact Htail|].
      intros (k' & o & [Heq|Hin] & Hne & Hc);
        [injection Heq as <- <-; congruence|].
      exists k', o. auto.
    + apply Nat.eqb_neq in Ek.
      destruct (intersects (deviceRect new) (deviceRect other)) eqn:Ei;
        cbn [negb].
      * split; [intros _|reflexivity].
        exists k, other. simpl. split; [now left|]. split; [exact Ek|].
        now left.
      * destruct (Qltb (Qabs (fsub arith (pos_x new) (pos_x other)))
                       (limit_distance pixel_width arith)) eqn:Ed.
        -- split; [intros _|reflexivity].
           exists k, other. simpl. split; [now left|]. split; [exact Ek|].
           right. split; [exact Ei|]. apply Qltb_lt. exact Ed.
        -- rewrite IH. split; [exact Htail|].
           intros (k' & o & [Heq|Hin] & Hne & Hc).
           ++ injection Heq as <- <-. exfalso.
              destruct Hc as [Hc|[_ Hc]]; [congruence|].
              apply Qltb_lt in Hc. unfold limit_distance in Ed.
              congruence.
           ++ exists k', o. auto.
Qed.

(** [place_label] stores and shows the new item and leaves the labels
    under the other ids alone. *)
Lemma place_label_labels self label_id label :
  _peak_labels (place_label self label_id label)
    = dict_set (_peak_labels self) label_id label.
Proof. reflexivity. Qed.

Lemma place_label_items self label_id label :
  items (place_label self label_id label) = items self ++ [label].
Proof. reflexivity. Qed.

Lemma dict_set_not_nil (d : dict TextItem) k v : dict_set d k v <> [].
Proof.
  destruct d as [|[k' v'] d]; simpl; [discriminate|].
  destruct (k' =? k)%nat; discriminate.
Qed.

Lemma label_clashes_placed self label_id label :
  exists b,
    _label_clashes deviceRect intersects pixel_width arith
      (place_label self label_id label) label_id = Ok b /\
    (b = true <->
     clashes_with deviceRect intersects pixel_width arith (_peak_labels self)
       label_id label).
Proof.
  unfold _label_clashes. rewrite place_label_labels.
  destruct (dict_set (_peak_labels self) label_id label) as [|e d'] eqn:E.
  - exfalso. exact (@dict_set_not_nil _ _ _ E).
  - rewrite <- E. rewrite dict_get_set_same.
    eexists. split; [reflexivity|].
    rewrite clash_loop_spec. unfold clashes_with.
    split; intros (k & o & Hin & Hne & Hc); exists k, o;
      (split; [|auto]).
    + now apply (@dict_set_others TextItem (_peak_labels self) label_id
                   label k o Hne) in Hin.
    + now apply (@dict_set_others TextItem (_peak_labels self) label_id
                   label k o Hne).
Qed.

(** C3: for every call of [_add_label], the clash test on the freshly
    placed label answers true exactly when some label stored under
    another id has a device rectangle that intersects the new one, or
    (the rectangles being disjoint) an anchor closer in x than 20 pixels
    at the current scale, the distance [abs(new.x - other.x)] and the
    limit [20.0 * pixel_width] being the floats the arithmetic computes;
    and when it answers true the new label is removed again within the
    call, from the label collection and from the plot, while otherwise it
    is retained. *)
Theorem add_label_collision (self : TICWidget.t) (label_id : nat)
    (label_text x y : Q) :
  let label := mkText (next_id self) label_text x y in
  let placed := place_label self label_id label in
  exists (clash : bool) (self' : TICWidget.t),
    _label_clashes deviceRect intersects pixel_width arith placed label_id
      = Ok clash /\
    (clash = true <->
     clashes_with deviceRect intersects pixel_width arith (_peak_labels self)
       label_id label) /\
    _add_label deviceRect intersects pixel_width arith self label_id
      label_text x y = Ok self' /\
    (clash = true ->
     dict_get (_peak_labels self') label_id = None /\
     ~ In label (items self')) /\
    (clash = false ->
     dict_get (_peak_labels self') label_id = Some label /\
     In label (items self')) /\
    (forall k, k <> label_id ->
       dict_get (_peak_labels self') k = dict_get (_peak_labels self) k).
Proof.
  intros label placed.
  destruct (label_clashes_placed self label_id label) as (b & Hb & Hiff).
  fold placed in Hb.
  assert (Hget : dict_get (_peak_labels placed) label_id = Some label).
  { unfold placed. rewrite place_label_labels. apply dict_get_set_same. }
  assert (Hother : forall k, k <> label_id ->
            dict_get (_peak_labels placed) k
              = dict_get (_peak_labels self) k).
  { intros k Hk. unfold placed. rewrite place_label_labels.
    now apply dict_get_set_other. }
  exists b.
  unfold _add_label. fold label. fold placed. rewrite Hb. cbn [bind].
  destruct b.
  - unfold _remove_label. rewrite Hget.
    eexists. split; [reflexivity|]. split; [exact Hiff|].
    split; [reflexivity|]. split; [|split].
    + intros _. cbn. split; [apply dict_get_del_same|].
      rewrite filter_In. intros [_ Hid]. cbn in Hid.
      rewrite Nat.eqb_refl in Hid. discriminate Hid.
    + discriminate.
    + intros k Hk. cbn [set_peak_labels _peak_labels].
      cbn [removeItem set_items _peak_labels].
      rewrite dict_get_del_other by exact Hk. now apply Hother.
  - exists placed. split; [reflexivity|]. split; [exact Hiff|].
    split; [reflexivity|]. split; [discriminate|]. split.
    + intros _. split; [exact Hget|].
      unfold placed. rewrite place_label_items. apply in_or_app.
      right. now left.
    + exact Hother.
Qed.

End LabelFacts.

(** ** Clearing the labels *)

Lemma remove_all_fields (d : dict TextItem) :
  forall s,
    same_but_items s
      (fold_left (fun s entry => removeItem s (snd entry)) d s).
Proof.
  induction d as [|e d IH]; intro s; simpl.
  - unfold same_but_items. repeat split.
  - specialize (IH (removeItem s (snd e))).
    unfold same_but_items in *. simpl in IH. exact IH.
Qed.

Lemma remove_all_items (d : dict TextItem) :
  forall s i,
    In i (items (fold_left (fun s entry => removeItem s (snd entry)) d s)) ->
    In i (items s) /\
    forall e, In e d -> item_id i <> item_id (snd e).
Proof.
  induction d as [|e d IH]; intros s i Hin; simpl in Hin.
  - split; [exact Hin|]. intros e [].
  - apply IH in Hin. destruct Hin as [Hin Hrest].
    simpl in Hin. apply filter_In in Hin. destruct Hin as [Hin Hid].
    split; [exact Hin|]. intros e' [<-|He']; [|now apply Hrest].
    apply negb_true_iff, Nat.eqb_neq in Hid. exact Hid.
Qed.

(** C9: one call of [_clear_labels] leaves the label collection empty,
    whatever it held, and takes every label's text item out of the plot;
    a second call right after it changes nothing, so the collection is
    empty again and no error arises on the empty collection. *)
Theorem clear_labels_idempotent (self : TICWidget.t) :
  _peak_labels (_clear_labels self) = [] /\
  _peak_labels (_clear_labels (_clear_labels self)) = [] /\
  _clear_labels (_clear_labels self) = _clear_labels self /\
  (forall k it, In (k, it) (_peak_labels self) ->
                ~ In it (items (_clear_labels self))).
Proof.
  split; [reflexivity|]. split; [reflexivity|]. split; [reflexivity|].
  intros k it Hin Hit. unfold _clear_labels in Hit. cbn in Hit.
  apply remove_all_items in Hit. destruct Hit as [_ Hne].
  exact (Hne (k, it) Hin eq_refl).
Qed.

(** ** Data-set updates *)

Section UpdateFacts.
Variable Rect : Type.
Variable deviceRect : TextItem -> Rect.
Variable intersects : Rect -> Rect -> bool.
Variable pixel_width : Q.
Variable arith : float_ops.
Variable rt_arith : float_ops.
Variable int_arith : float_ops.

Let update :=
  setTIC deviceRect intersects pixel_width arith rt_arith int_arith.

(** An update with an empty chromatogram clears the labels, switches
    [_existTIC] off and keeps the peak indices and the plotted curves of
    the data set before it. *)
Lemma setTIC_empty self x_range :
  exists s,
    update self [] x_range = Ok s /\
    _peak_labels s = [] /\ _existTIC s = false /\
    _peak_indices s = _peak_indices self /\ curves s = curves self.
Proof.
  destruct (remove_all_fields (_peak_labels self) self)
    as (_ & _ & _ & _ & Hp & _ & _ & _ & Hc & _).
  unfold update, setTIC.
  destruct (_peak_labels self) as [|e d] eqn:E.
  - eexists. split; [reflexivity|]. cbn. repeat split. exact E.
  - eexists. split; [reflexivity|]. cbn. rewrite ?E. cbn.
    cbn in Hp, Hc. repeat split; assumption.
Qed.

(** Once [_existTIC] is off, an update stores the raw arrays and does
    nothing else: no rescaling, no peak finding, no redraw. *)
Lemma setTIC_switched_off self chromatogram x_range :
  _peak_labels self = [] -> _existTIC self = false ->
  exists s,
    update self chromatogram x_range = Ok s /\
    _peak_labels s = [] /\ _existTIC s = false /\
    _rts s = map fst chromatogram /\ _ints s = map snd chromatogram /\
    _peak_indices s = _peak_indices self /\ curves s = curves self /\
    items s = items self.
Proof.
  intros Hl He. unfold update, setTIC. rewrite Hl.
  unfold checkExistTIC. cbn [set_data _rts].
  destruct (length (map fst chromatogram) =? 0)%nat.
  - eexists. split; [reflexivity|]. cbn. auto 10.
  - cbn [set_data _existTIC]. rewrite He.
    eexists. split; [reflexivity|]. cbn. auto 10.
Qed.
End UpdateFacts.

(** C4: an update that follows an update with an empty chromatogram
    rebuilds nothing.  The empty update switches [_existTIC] off and no
    later update switches it on again: the new arrays are stored raw, and
    the peak indices and the plotted curve stay those of the data set
    before the empty one.  In the sample run the second chromatogram has
    its peaks at the indices 0 and 3, the widget keeps the index 1 found
    in the first chromatogram, and the next range change labels the
    sample at index 1. *)
Theorem setTIC_after_empty_update_is_stale :
  (forall (Rect : Type) (deviceRect : TextItem -> Rect)
          (intersects : Rect -> Rect -> bool) (pixel_width : Q)
          (arith rt_arith int_arith : float_ops)
          (self : TICWidget.t) (chromatogram : list (Q * Q))
          (r1 r2 : axis_range),
     exists s1 s2,
       setTIC deviceRect intersects pixel_width arith rt_arith int_arith
         self [] r1 = Ok s1 /\
       setTIC deviceRect intersects pixel_width arith rt_arith int_arith
         s1 chromatogram r2 = Ok s2 /\
       _existTIC s2 = false /\
       _peak_indices s2 = _peak_indices self /\
       curves s2 = curves self /\
       _peak_labels s2 = [] /\
       _rts s2 = map fst chromatogram /\ _ints s2 = map snd chromatogram) /\
  sample_run = Ok ([0; 3]%nat, [1]%nat, [1]%nat, [1]%nat).
Proof.
  split.
  - intros Rect deviceRect intersects pixel_width arith rt_arith int_arith
           self chromatogram r1 r2.
    destruct (@setTIC_empty Rect deviceRect intersects pixel_width arith
                rt_arith int_arith self r1)
      as (s1 & H1 & Hl1 & He1 & Hp1 & Hc1).
    destruct (@setTIC_switched_off Rect deviceRect intersects pixel_width
                arith rt_arith int_arith s1 chromatogram r2 Hl1 He1)
      as (s2 & H2 & Hl2 & He2 & Hr2 & Hi2 & Hp2 & Hc2 & _).
    exists s1, s2. repeat split; try assumption; congruence.
  - vm_compute. reflexivity.
Qed.

(** * Further properties of the modelled code *)

(** ** What [_find_Peak] returns *)

Lemma setitem_length {A} (arr : list A) i v :
  length (setitem arr i v) = length arr.
Proof.
  revert i. induction arr as [|h t IH]; intros [|i]; simpl; auto.
Qed.

Lemma nth_setitem (arr : list bool) i k :
  (i < length arr)%nat ->
  nth k (setitem arr i true) false
    = if (k =? i)%nat then true else nth k arr false.
Proof.
  revert i k. induction arr as [|h t IH]; intros i k Hi; simpl in Hi; [lia|].
  destruct i as [|i], k as [|k]; simpl; try reflexivity.
  apply IH. lia.
Qed.

Lemma where_from_In i arr k :
  In k (where_from i arr) <->
  (i <= k < i + length arr)%nat /\ nth (k - i) arr false = true.
Proof.
  revert i. induction arr as [|b t IH]; intro i; simpl.
  - split; [intros []|]. intros [H _]. lia.
  - assert (Htail :
      In k (where_from (S i) t) <->
      (i < k < i + S (length t))%nat /\
      nth (k - i) (b :: t) false = true).
    { rewrite IH. split; intros [Hk Hn]; (split; [lia|]).
      - replace (k - i)%nat with (S (k - S i)) by lia. exact Hn.
      - replace (k - i)%nat with (S (k - S i)) in Hn by lia. exact Hn. }
    destruct b; simpl.
    + rewrite Htail. split.
      * intros [<-|[Hk Hn]]; [split; [lia|]|split; [lia|exact Hn]].
        now rewrite Nat.sub_diag.
      * intros [Hk Hn]. destruct (Nat.eq_dec i k) as [E|E]; [now left|].
        right. split; [lia|exact Hn].
    + rewrite Htail. split; intros [Hk Hn]; (split; [|exact Hn]); try lia.
      destruct (Nat.eq_dec i k) as [<-|E]; [|lia].
      rewrite Nat.sub_diag in Hn. discriminate Hn.
Qed.

Lemma lt_sorted_NoDup l : StronglySorted lt l -> NoDup l.
Proof.
  induction 1 as [|a l Hs IH Hall]; constructor; [|exact IH].
  intro Hin. rewrite Forall_forall in Hall. specialize (Hall a Hin). lia.
Qed.

Lemma find_marks_length data :
  length (snd (find_marks data)) = length data.
Proof.
  pose (P := fun (_ : nat) (st : peak_value * list bool) =>
               length (snd st) = length data).
  apply (find_marks_invariant data P).
  - unfold P. simpl. apply repeat_length.
  - intros i [pv marks] Hi HP. unfold P in *. simpl in HP.
    unfold outer_body.
    destruct (below pv (at_ data i)); [|exact HP].
    destruct (inner_loop data (at_ data i) (range i (length data)));
      simpl; try exact HP.
    now rewrite setitem_length.
Qed.

(** An index is returned exactly when it is marked. *)
Lemma find_Peak_In data m :
  In m (_find_Peak data) <->
  (m < length data)%nat /\ nth m (snd (find_marks data)) false = true.
Proof.
  unfold _find_Peak, np_where.
  assert (Hp := sorted_desc_perm (at_ data)
                  (where_from 0 (snd (find_marks data)))).
  split.
  - intro Hin. apply (Permutation_in _ Hp) in Hin.
    apply where_from_In in Hin. rewrite find_marks_length in Hin.
    rewrite Nat.sub_0_r in Hin. destruct Hin as [Hk Hn]. split; [lia|exact Hn].
  - intros [Hm Hn]. apply (Permutation_in _ (Permutation_sym Hp)).
    apply where_from_In. rewrite find_marks_length, Nat.sub_0_r.
    split; [lia|exact Hn].
Qed.

(** X1: the peak list holds valid indices of the data, each at most
    once. *)
Theorem find_Peak_valid_indices (data : list Q) :
  Forall (fun m => (m < length data)%nat) (_find_Peak data) /\
  NoDup (_find_Peak data).
Proof.
  split.
  - apply Forall_forall. intros m Hm. now apply find_Peak_In in Hm.
  - unfold _find_Peak, np_where.
    apply (Permutation_NoDup
             (Permutation_sym (sorted_desc_perm (at_ data) _))).
    apply lt_sorted_NoDup, where_from_ascending.
Qed.

Lemma below_lt data i pv :
  peak_value_ok data i pv -> below pv (at_ data i) = true ->
  (0 < i)%nat -> at_ data (i - 1) <= at_ data i.
Proof.
  destruct pv as [|p]; simpl; [lia|].
  intros (_ & _ & H) Hb _. apply H, Qltb_lt, Hb.
Qed.

Lemma strict_peak_below data i pv :
  peak_value_ok data i pv -> strict_peak data i ->
  below pv (at_ data i) = true.
Proof.
  destruct pv as [|p]; simpl; [reflexivity|].
  intros (Hi & Hle & _) (Hleft & _). apply Qltb_lt.
  eapply Qle_lt_trans; [exact Hle|apply Hleft, Hi].
Qed.

Lemma strict_peak_scan data i :
  strict_peak data i ->
  inner_loop data (at_ data i) (range i (length data)) = Descent (S i).
Proof.
  intros (_ & Hlen & Hlt).
  rewrite range_cons by lia. cbn [inner_loop]. rewrite compare_self.
  rewrite range_cons by lia. cbn [inner_loop].
  now rewrite (compare_gt Hlt).
Qed.

Lemma outer_body_ok data i pv marks :
  (i < length data)%nat ->
  peak_value_ok data i pv -> marks_ok data i marks ->
  peak_value_ok data (S i) (fst (outer_body data (pv, marks) i)) /\
  marks_ok data (S i) (snd (outer_body data (pv, marks) i)).
Proof.
  intros Hi Hpv (Hlen & Hsound & Hcomplete).
  assert (Hkeep :
    peak_value_ok data (S i) (Val (at_ data i)) /\
    (~ strict_peak data i -> marks_ok data (S i) marks)).
  { split.
    - simpl. rewrite Nat.sub_0_r. split; [lia|]. split; [apply Qle_refl|].
      apply Qlt_le_weak.
    - intro Hno. split; [exact Hlen|]. split; [exact Hsound|].
      intros m Hm Hp. destruct (Nat.eq_dec m i) as [->|Hne];
        [contradiction|apply Hcomplete; [lia|exact Hp]]. }
  destruct Hkeep as [Hpv' Hmarks'].
  unfold outer_body.
  destruct (below pv (at_ data i)) eqn:Hb.
  - destruct (inner_loop data (at_ data i) (range i (length data)))
      as [|j|j] eqn:Hscan; cbn [fst snd].
    + split; [exact Hpv'|]. apply Hmarks'. intro Hp.
      rewrite (@strict_peak_scan data i Hp) in Hscan. discriminate Hscan.
    + split; [exact Hpv'|]. apply Hmarks'. intro Hp.
      rewrite (@strict_peak_scan data i Hp) in Hscan. discriminate Hscan.
    + assert (Hstrict : strict_peak data i -> j = S i).
      { intro Hp. rewrite (@strict_peak_scan data i Hp) in Hscan.
        now injection Hscan. }
      unfold range in Hscan. apply inner_loop_descent in Hscan.
      destruct Hscan as (Hj & Hlt & Hpl).
      assert (Hij : (i < j)%nat).
      { destruct (Nat.eq_dec i j) as [<-|]; [|lia].
        exfalso. apply (Qlt_irrefl _ Hlt). }
      assert (Hmid : (i <= i + (j - i) / 2 < j)%nat).
      { assert ((j - i) / 2 < j - i)%nat by (apply Nat.div_lt; lia). lia. }
      rewrite peakIndex_eq by lia.
      set (m := (i + (j - i) / 2)%nat) in *.
      split.
      * simpl. rewrite Nat.sub_0_r. split; [lia|].
        split; [apply Qlt_le_weak, Hlt|].
        intro Hlt'. destruct (Nat.eq_dec j (S i)) as [->|Hne].
        -- exfalso. apply (Qlt_irrefl _ Hlt').
        -- rewrite (Hpl (S i)) by lia. apply Qle_refl.
      * split; [now rewrite setitem_length|]. split.
        -- intros k Hk. rewrite nth_setitem in Hk by lia.
           destruct (k =? m)%nat eqn:E; [|now apply Hsound].
           apply Nat.eqb_eq in E. subst k. split.
           ++ intro Hpos. destruct (Nat.eq_dec m i) as [E|E].
              ** rewrite E. apply (@below_lt data i pv Hpv Hb). lia.
              ** rewrite (Hpl (m - 1)%nat), (Hpl m) by lia. apply Qle_refl.
           ++ exists j. split; [lia|]. split.
              ** rewrite (Hpl m) by lia. exact Hlt.
              ** intros k' Hk'. rewrite (Hpl k'), (Hpl m) by lia.
                 reflexivity.
        -- intros k Hk Hp. rewrite nth_setitem by lia.
           destruct (k =? m)%nat eqn:E; [reflexivity|].
           apply Nat.eqb_neq in E.
           destruct (Nat.eq_dec k i) as [->|Hne];
             [|apply Hcomplete; [lia|exact Hp]].
           exfalso. apply E. unfold m. rewrite (Hstrict Hp).
           replace (S i - i)%nat with 1%nat by lia. simpl. lia.
  - cbn [fst snd]. split; [exact Hpv'|]. apply Hmarks'. intro Hp.
    rewrite (@strict_peak_below data i pv Hpv Hp) in Hb. discriminate Hb.
Qed.

Lemma find_marks_ok data :
  marks_ok data (length data) (snd (find_marks data)).
Proof.
  pose (P := fun (i : nat) (st : peak_value * list bool) =>
               peak_value_ok data i (fst st) /\ marks_ok data i (snd st)).
  apply (find_marks_invariant data P).
  - split; [reflexivity|]. split; [apply repeat_length|]. split.
    + intros m Hm. simpl in Hm. rewrite nth_repeat in Hm. discriminate Hm.
    + intros m Hm. lia.
  - intros i [pv marks] Hi [Hpv Hm]. now apply outer_body_ok.
Qed.

(** X2: every index that [_find_Peak] returns is a local maximum: the
    sample before it is not higher, and the values stay equal from it on
    until a strictly lower sample follows inside the data.  The last sample
    is therefore never returned. *)
Theorem find_Peak_sound (data : list Q) (m : nat) :
  In m (_find_Peak data) ->
  local_max data m /\ (S m < length data)%nat.
Proof.
  intro Hin. apply find_Peak_In in Hin. destruct Hin as [_ Hn].
  destruct (find_marks_ok data) as (_ & Hsound & _).
  specialize (Hsound m Hn). split; [exact Hsound|].
  destruct Hsound as (_ & j & Hj & _). lia.
Qed.

Lemma find_Peak_sound_witness :
  local_max [1; 5; 3; 5; 1] 3 /\ (4 < 5)%nat.
Proof.
  apply (@find_Peak_sound [1; 5; 3; 5; 1] 3%nat).
  vm_compute. right. left. reflexivity.
Defined.

(** X3: every strict peak, a sample strictly above both its neighbours (at
    index 0: strictly above the sample after it), is returned. *)
Theorem find_Peak_complete (data : list Q) (m : nat) :
  strict_peak data m -> In m (_find_Peak data).
Proof.
  intro Hp. apply find_Peak_In.
  destruct (find_marks_ok data) as (_ & _ & Hcomplete).
  destruct Hp as (Hl & Hlen & Hr).
  split; [lia|]. apply Hcomplete; [lia|]. split; [exact Hl|]. split; assumption.
Qed.

Lemma find_Peak_complete_witness : In 1%nat (_find_Peak [1; 5; 3; 5; 1]).
Proof.
  apply find_Peak_complete. split; [|split].
  - intros _. Qcmp.
  - simpl. lia.
  - Qcmp.
Defined.

(** ** The arithmetic of the sample runs *)

Lemma exact_ops_ieee : ieee exact_ops.
Proof.
  constructor; cbn [exact_ops fsub fmul fdiv].
  - intros a b x Hab. lra.
  - intro x. ring.
  - intros a b c Hc Hab. now apply Qmult_le_compat_r.
  - reflexivity.
  - intros a b c Hc Hab. unfold Qdiv. apply Qmult_le_compat_r; [exact Hab|].
    apply Qinv_le_0_compat. now apply Qlt_le_weak.
  - intros c Hc. now apply Qmult_inv_r.
Qed.

Lemma Qeq_le (a b : Q) : a == b -> a <= b.
Proof. intro H. rewrite H. apply Qle_refl. Qed.

Lemma Qeq_bool_false (a b : Q) : ~ a == b -> Qeq_bool a b = false.
Proof.
  intro H. destruct (Qeq_bool a b) eqn:E; [|reflexivity].
  apply Qeq_bool_iff in E. contradiction.
Qed.

(** ** Rescaling the intensities *)

Lemma at_In xs i : (i < length xs)%nat -> In (at_ xs i) xs.
Proof. intro Hi. unfold at_. now apply nth_In. Qed.

Lemma range_bound a b : Forall (fun j => (j < b)%nat) (range a b).
Proof. apply Forall_forall. intros j Hj. apply in_range in Hj. lia. Qed.

Lemma insert_desc_ext (key key' : nat -> Q) x l :
  (forall y, In y l -> Qltb (key' x) (key' y) = Qltb (key x) (key y)) ->
  insert_desc key' x l = insert_desc key x l.
Proof.
  induction l as [|y t IH]; intro H; simpl; [reflexivity|].
  rewrite (H y) by now left.
  destruct (Qltb (key x) (key y)); [|reflexivity].
  f_equal. apply IH. intros z Hz. apply H. now right.
Qed.

Lemma sorted_desc_ext (key key' : nat -> Q) l :
  (forall x y, In x l -> In y l ->
               Qltb (key' x) (key' y) = Qltb (key x) (key y)) ->
  sorted_desc key' l = sorted_desc key l.
Proof.
  induction l as [|x t IH]; intro H; simpl; [reflexivity|].
  rewrite IH by (intros; apply H; now right).
  apply insert_desc_ext. intros y Hy. apply H; [now left|].
  right. now apply (Permutation_in _ (sorted_desc_perm key t)).
Qed.

(** A rescaling [f] that keeps the order of the samples of [data]: equal
    samples stay equal and a smaller one stays smaller. *)
Section OrderPreserving.
Variable f : Q -> Q.
Variable data : list Q.
Hypothesis f_compare :
  forall a b, In a data -> In b data -> (f a ?= f b) = (a ?= b).

(** The running peak value is minus infinity or a sample. *)
Let sampled (pv : peak_value) : Prop :=
  match pv with
  | NegInf => True
  | Val p => In p data
  end.

Lemma at_map i :
  (i < length data)%nat -> at_ (map f data) i = f (at_ data i).
Proof.
  intro Hi. unfold at_.
  rewrite (nth_indep _ 0 (f 0)) by (now rewrite length_map).
  apply map_nth.
Qed.

Lemma Qltb_map a b :
  In a data -> In b data -> Qltb (f a) (f b) = Qltb a b.
Proof. intros Ha Hb. unfold Qltb. now rewrite f_compare. Qed.

Lemma below_map pv x :
  sampled pv -> In x data ->
  below (map_peak_value f pv) (f x) = below pv x.
Proof.
  destruct pv; simpl; [reflexivity|]. intros Hp Hx. now apply Qltb_map.
Qed.

Lemma inner_loop_map v js :
  In v data -> Forall (fun j => (j < length data)%nat) js ->
  inner_loop (map f data) (f v) js = inner_loop data v js.
Proof.
  intro Hv. induction 1 as [|j js Hj _ IH]; cbn [inner_loop]; [reflexivity|].
  rewrite (at_map Hj), f_compare, IH; [reflexivity|exact Hv|].
  now apply at_In.
Qed.

Lemma outer_body_map pv marks i :
  (i < length data)%nat -> sampled pv ->
  outer_body (map f data) (map_peak_value f pv, marks) i
    = (map_peak_value f (fst (outer_body data (pv, marks) i)),
       snd (outer_body data (pv, marks) i)) /\
  sampled (fst (outer_body data (pv, marks) i)).
Proof.
  intros Hi Hp. unfold outer_body.
  assert (Hin : In (at_ data i) data) by now apply at_In.
  rewrite length_map, (at_map Hi), below_map by assumption.
  rewrite inner_loop_map by (assumption || apply range_bound).
  destruct (below pv (at_ data i)); [|split; [reflexivity|exact Hin]].
  destruct (inner_loop data (at_ data i) (range i (length data)))
    as [|j|j] eqn:Hscan; try (split; [reflexivity|exact Hin]).
  unfold range in Hscan. apply inner_loop_descent in Hscan.
  destruct Hscan as (Hj & _). cbn [fst snd map_peak_value].
  rewrite at_map by lia. split; [reflexivity|]. apply at_In. lia.
Qed.

Lemma fold_outer_body_map k :
  forall a pv marks, (a + k <= length data)%nat -> sampled pv ->
    fold_left (outer_body (map f data)) (seq a k)
              (map_peak_value f pv, marks)
    = (map_peak_value f
         (fst (fold_left (outer_body data) (seq a k) (pv, marks))),
       snd (fold_left (outer_body data) (seq a k) (pv, marks))).
Proof.
  induction k as [|k IH]; intros a pv marks Hk Hp; cbn [seq fold_left].
  - reflexivity.
  - destruct (@outer_body_map pv marks a ltac:(lia) Hp) as [-> Hp'].
    destruct (outer_body data (pv, marks) a) as [pv' marks'].
    cbn [fst snd] in *. apply IH; [lia|exact Hp'].
Qed.

Lemma find_marks_map :
  snd (find_marks (map f data)) = snd (find_marks data).
Proof.
  unfold find_marks, range. rewrite length_map, Nat.sub_0_r.
  change (NegInf, repeat false (length data))
    with (map_peak_value f NegInf, repeat false (length data)).
  rewrite fold_outer_body_map by (lia || exact I). reflexivity.
Qed.

(** The peak list depends on the order of the values only. *)
Lemma find_Peak_map : _find_Peak (map f data) = _find_Peak data.
Proof.
  unfold _find_Peak. rewrite find_marks_map.
  apply sorted_desc_ext. intros x y Hx Hy.
  unfold np_where in Hx, Hy.
  apply where_from_In in Hx. apply where_from_In in Hy.
  rewrite find_marks_length in Hx, Hy.
  rewrite !at_map by lia. apply Qltb_map; apply at_In; lia.
Qed.
End OrderPreserving.

Lemma fold_Qmax_In t h : In (fold_left Qmax t h) (h :: t).
Proof.
  destruct (amax_initial_spec t h) as (_ & _ & [H|H]);
    unfold amax_initial in H; [left; now rewrite H|now right].
Qed.

(** X4: when the greatest intensity is not zero and the rounded rescaling
    keeps the order of the intensities of the chromatogram (equal ones
    stay equal, a smaller one stays smaller), [_relative_ints] does not
    change the peaks: the peak list of the percentages is the peak list of
    the raw intensities.  Rounding can merge distinct intensities into one
    percentage; the hypothesis excludes that. *)
Theorem relative_ints_keeps_peaks (ops : float_ops) (self : TICWidget.t)
    (maxInt : Q) :
  let percent := fun x => fmul ops (fdiv ops x maxInt) 100 in
  amax (_ints self) = Ok maxInt -> ~ maxInt == 0 ->
  (forall a b, In a (_ints self) -> In b (_ints self) ->
               (percent a ?= percent b) = (a ?= b)) ->
  exists s, _relative_ints ops self = Ok s /\
            _ints s = map percent (_ints self) /\
            _find_Peak (_ints s) = _find_Peak (_ints self).
Proof.
  intros percent Hmax Hnz Hcmp. unfold _relative_ints.
  rewrite Hmax. cbn [bind]. rewrite (Qeq_bool_false Hnz).
  eexists. split; [reflexivity|]. cbn [set_data _ints].
  split; [reflexivity|]. now apply find_Peak_map.
Qed.

Lemma relative_ints_keeps_peaks_witness :
  exists s,
    _relative_ints exact_ops
      (TICWidget.mk [] true [1; 2; 3; 4; 5] [2; 8; 4; 8; 2] [] [] None
         None [] [] 0) = Ok s /\
    _ints s = map (fun x => fmul exact_ops (fdiv exact_ops x 8) 100)
                  [2; 8; 4; 8; 2] /\
    _find_Peak (_ints s) = _find_Peak [2; 8; 4; 8; 2].
Proof.
  apply (@relative_ints_keeps_peaks exact_ops
    (TICWidget.mk [] true [1; 2; 3; 4; 5] [2; 8; 4; 8; 2] [] [] None
       None [] [] 0) 8).
  - reflexivity.
  - intro H. vm_compute in H. discriminate H.
  - intros a b Ha Hb. cbn [_ints In] in Ha, Hb.
    repeat match goal with
           | H : _ \/ _ |- _ => destruct H as [H|H]
           | H : False |- _ => destruct H
           end; subst; reflexivity.
Defined.

Lemma amax_upper xs m : amax xs = Ok m -> forall x, In x xs -> x <= m.
Proof.
  destruct xs as [|h t]; [discriminate|]. intro H. injection H as <-.
  destruct (amax_initial_spec t h) as (Hle & Hall & _).
  unfold amax_initial in *. intros x [<-|Hx]; [exact Hle|now apply Hall].
Qed.

Lemma amax_In xs m : amax xs = Ok m -> In m xs.
Proof.
  destruct xs as [|h t]; [discriminate|]. intro H. injection H as <-.
  apply fold_Qmax_In.
Qed.

(** X5: when the greatest intensity is positive, [_relative_ints] keeps
    the number of samples and the retention times, turns every intensity
    into a percentage of at most 100, and the greatest one into 100,
    whatever the division and the multiplication round. *)
Theorem relative_ints_percent (ops : float_ops) (self : TICWidget.t)
    (maxInt : Q) :
  ieee ops ->
  amax (_ints self) = Ok maxInt -> 0 < maxInt ->
  exists s, _relative_ints ops self = Ok s /\
            _rts s = _rts self /\
            length (_ints s) = length (_ints self) /\
            Forall (fun y => y <= 100) (_ints s) /\
            Exists (fun y => y == 100) (_ints s).
Proof.
  intros Hops Hmax Hpos. unfold _relative_ints. rewrite Hmax. cbn [bind].
  assert (Hnz : ~ maxInt == 0)
    by (intro H0; rewrite H0 in Hpos; discriminate Hpos).
  rewrite (Qeq_bool_false Hnz).
  eexists. split; [reflexivity|]. cbn [set_data _ints _rts].
  split; [reflexivity|]. split; [apply length_map|].
  assert (H100 : (0 <= 100)%Q) by discriminate.
  split.
  - apply Forall_forall. intros y Hy. apply in_map_iff in Hy.
    destruct Hy as (x & <- & Hx).
    assert (Hle := @amax_upper (_ints self) maxInt Hmax x Hx).
    assert (H1 : fdiv ops x maxInt <= 1).
    { eapply Qle_trans; [apply (fdiv_le Hops); [exact Hpos|exact Hle]|].
      apply Qeq_le, (fdiv_diag Hops Hnz). }
    eapply Qle_trans; [apply (fmul_le Hops); [exact H100|exact H1]|].
    apply Qeq_le, (fmul_hundred Hops).
  - apply Exists_exists.
    exists (fmul ops (fdiv ops maxInt maxInt) 100). split.
    + apply in_map_iff. exists maxInt. split; [reflexivity|].
      now apply (@amax_In (_ints self) maxInt).
    + assert (H1 := fdiv_diag Hops Hnz).
      apply Qle_antisym.
      * eapply Qle_trans; [|apply Qeq_le, (fmul_hundred Hops)].
        apply (fmul_le Hops); [exact H100|]. now apply Qeq_le.
      * eapply Qle_trans; [apply Qeq_le; symmetry; apply (fmul_hundred Hops)|].
        apply (fmul_le Hops); [exact H100|].
        apply Qeq_le. now symmetry.
Qed.

Lemma relative_ints_percent_witness :
  exists s,
    _relative_ints exact_ops
      (TICWidget.mk [] true [1; 2; 3] [2; 8; 4] [] [] None None [] [] 0)
      = Ok s /\
    _rts s = [1; 2; 3] /\ length (_ints s) = 3%nat /\
    Forall (fun y => y <= 100) (_ints s) /\
    Exists (fun y => y == 100) (_ints s).
Proof.
  apply (@relative_ints_percent exact_ops
    (TICWidget.mk [] true [1; 2; 3] [2; 8; 4] [] [] None None [] [] 0) 8);
    [exact exact_ops_ieee|reflexivity|Qcmp].
Defined.

Lemma Sorted_map_Qle (g : Q -> Q) xs :
  (forall a b, a <= b -> g a <= g b) ->
  Sorted Qle xs -> Sorted Qle (map g xs).
Proof.
  intros Hg. induction 1 as [|a l Hs IH Hhd]; simpl; constructor.
  - exact IH.
  - destruct Hhd as [|b l Hab]; simpl; constructor. now apply Hg.
Qed.

(** X6: the conversion of the retention times to minutes keeps them in
    ascending order (the order the bisection of the range queries relies
    on), whatever the division rounds, and leaves the intensities
    alone. *)
Theorem rts_in_min_sorted (ops : float_ops) (self : TICWidget.t) :
  ieee ops ->
  Sorted Qle (_rts self) ->
  Sorted Qle (_rts (_rts_in_min ops self)) /\
  length (_rts (_rts_in_min ops self)) = length (_rts self) /\
  _ints (_rts_in_min ops self) = _ints self.
Proof.
  intros Hops Hs. cbn [_rts_in_min set_data _rts _ints].
  split; [|split; [apply length_map|reflexivity]].
  apply Sorted_map_Qle; [|exact Hs].
  intros a b Hab. apply (fdiv_le Hops); [reflexivity|exact Hab].
Qed.

Lemma rts_in_min_sorted_witness :
  Sorted Qle
    (_rts (_rts_in_min exact_ops
       (TICWidget.mk [] true [60; 120; 180] [1; 4; 1] [] [] None None []
          [] 0))) /\
  length
    (_rts (_rts_in_min exact_ops
       (TICWidget.mk [] true [60; 120; 180] [1; 4; 1] [] [] None None []
          [] 0))) = 3%nat /\
  _ints (_rts_in_min exact_ops
       (TICWidget.mk [] true [60; 120; 180] [1; 4; 1] [] [] None None []
          [] 0)) = [1; 4; 1].
Proof.
  apply (@rts_in_min_sorted exact_ops
    (TICWidget.mk [] true [60; 120; 180] [1; 4; 1] [] [] None None [] []
       0)).
  - exact exact_ops_ieee.
  - simpl. sorted_Q.
Defined.

(** ** The closest data point, clicks and regions *)

(** The computed distance grows with the exact one on either side of the
    click. *)
Lemma fabs_above (ops : float_ops) (a b x : Q) :
  ieee ops -> x <= a -> a <= b ->
  Qabs (fsub ops a x) <= Qabs (fsub ops b x).
Proof.
  intros Hops Hxa Hab.
  assert (H0 := fsub_diag Hops x).
  assert (H1 := fsub_le Hops x Hxa).
  assert (H2 := fsub_le Hops x Hab).
  rewrite !Qabs_pos by lra. exact H2.
Qed.

Lemma fabs_below (ops : float_ops) (a b x : Q) :
  ieee ops -> a <= x -> b <= a ->
  Qabs (fsub ops a x) <= Qabs (fsub ops b x).
Proof.
  intros Hops Hax Hba.
  assert (H0 := fsub_diag Hops x).
  assert (H1 := fsub_le Hops x Hax).
  assert (H2 := fsub_le Hops x Hba).
  rewrite !Qabs_neg by lra. lra.
Qed.

(** On sorted data the computed index is that of a sample at the least
    computed distance. *)
Lemma closest_datapoint_sorted (ops : float_ops) (self : TICWidget.t)
    (point_x : Q) :
  ieee ops -> Sorted Qle (_rts self) -> _rts self <> [] ->
  exists idx : nat,
    _calculate_closest_datapoint ops self point_x = Ok (Z.of_nat idx) /\
    (idx < length (_rts self))%nat /\
    forall k, (k < length (_rts self))%nat ->
      Qabs (fsub ops (at_ (_rts self) idx) point_x)
        <= Qabs (fsub ops (at_ (_rts self) k) point_x).
Proof.
  intros Hops Hs Hne.
  destruct (closest_datapoint_general ops self point_x Hne)
    as (Hl & Hsm & Hval).
  destruct (searchsorted_left_spec point_x Hs) as [L1 L2].
  set (rts := _rts self) in *. set (n := length rts) in *.
  set (s := searchsorted rts point_x SideLeft) in *.
  set (larger := if (s =? n)%nat then (n - 1)%nat else s) in *.
  set (smaller := (larger - 1)%nat) in *.
  set (d := fun k => Qabs (fsub ops (at_ rts k) point_x)).
  (* samples left of the bisection position lie below the click, the
     others do not *)
  assert (Hleft : forall i k, (k <= i < s)%nat -> d i <= d k).
  { intros i k Hik. apply fabs_below; [exact Hops| |].
    - apply Qlt_le_weak, L1. lia.
    - apply (sorted_at_le Hs). unfold n in *.
      assert (Hb := searchsorted_bounds rts point_x SideLeft).
      fold s in Hb. lia. }
  assert (Hright : forall i k, (s <= i <= k)%nat -> (k < n)%nat -> d i <= d k).
  { intros i k Hik Hk. apply fabs_above; [exact Hops| |].
    - apply L2. lia.
    - apply (sorted_at_le Hs). lia. }
  assert (Hb : (s <= n)%nat) by apply searchsorted_bounds.
  destruct (Qltb (d larger) (d smaller)) eqn:Ec;
    fold (d larger) (d smaller) in Hval; rewrite Ec in Hval.
  - apply Qltb_lt in Ec.
    exists larger. split; [exact Hval|]. split; [exact Hl|].
    intros k Hk. unfold larger in *.
    destruct (s =? n)%nat eqn:E.
    + apply Nat.eqb_eq in E. apply Hleft. lia.
    + apply Nat.eqb_neq in E.
      destruct (Nat.lt_ge_cases k s) as [Hks|Hks].
      * apply Qlt_le_weak. eapply Qlt_le_trans; [exact Ec|].
        apply Hleft. unfold smaller. lia.
      * apply Hright; lia.
  - apply Qltb_ge in Ec.
    exists smaller. split; [exact Hval|]. split; [lia|].
    intros k Hk. unfold larger in *.
    destruct (s =? n)%nat eqn:E.
    + apply Nat.eqb_eq in E.
      eapply Qle_trans; [exact Ec|]. apply Hleft. lia.
    + apply Nat.eqb_neq in E.
      destruct (Nat.lt_ge_cases k s) as [Hks|Hks].
      * destruct (Nat.eq_dec s 0) as [E0|E0]; [lia|].
        apply Hleft. unfold smaller. lia.
      * eapply Qle_trans; [exact Ec|]. apply Hright; lia.
Qed.

Lemma nearest_at (ops : float_ops) xs x idx :
  (idx < length xs)%nat ->
  (forall k, (k < length xs)%nat ->
             Qabs (fsub ops (at_ xs idx) x) <= Qabs (fsub ops (at_ xs k) x)) ->
  nearest_sample ops xs x (at_ xs idx).
Proof.
  intros Hi Hall. split; [now apply at_In|].
  intros w Hw. destruct (In_nth _ _ 0 Hw) as (k & Hk & <-).
  now apply Hall.
Qed.

Lemma closest_datapoint_near (ops : float_ops) (self : TICWidget.t)
    (point_x : Q) :
  ieee ops -> Sorted Qle (_rts self) -> _rts self <> [] ->
  exists idx : nat,
    _calculate_closest_datapoint ops self point_x = Ok (Z.of_nat idx) /\
    (idx < length (_rts self))%nat /\
    nearest_sample ops (_rts self) point_x (at_ (_rts self) idx).
Proof.
  intros Hops Hs Hne.
  destruct (@closest_datapoint_sorted ops self point_x Hops Hs Hne)
    as (idx & Hr & Hi & Hd).
  exists idx. split; [exact Hr|]. split; [exact Hi|]. now apply nearest_at.
Qed.

Lemma closest_datapoint_empty (ops : float_ops) (self : TICWidget.t)
    (point_x : Q) :
  _rts self = [] ->
  _calculate_closest_datapoint ops self point_x = IndexError.
Proof.
  intro E. unfold _calculate_closest_datapoint. rewrite E. reflexivity.
Qed.

(** X7: on sorted, non-empty retention times the closest-point search
    returns the index of a sample at the least computed distance from the
    clicked coordinate: no sample [w] has a smaller [abs(w - x)] as the
    float subtraction gives it.  (Two samples whose distances round to the
    same float count as equally near; the search then prefers the smaller
    index.) *)
Theorem closest_datapoint_nearest (ops : float_ops) (self : TICWidget.t)
    (point_x : Q) :
  ieee ops -> Sorted Qle (_rts self) -> _rts self <> [] ->
  exists idx : nat,
    _calculate_closest_datapoint ops self point_x = Ok (Z.of_nat idx) /\
    (idx < length (_rts self))%nat /\
    nearest_sample ops (_rts self) point_x (at_ (_rts self) idx).
Proof.
  apply closest_datapoint_near.
Qed.

Lemma closest_datapoint_nearest_witness :
  exists idx : nat,
    _calculate_closest_datapoint exact_ops
      (TICWidget.mk [] true [1; 2; 4] [5; 6; 7] [] [] None None [] [] 0)
      (5 # 2) = Ok (Z.of_nat idx) /\
    (idx < 3)%nat /\
    nearest_sample exact_ops [1; 2; 4] (5 # 2) (at_ [1; 2; 4] idx).
Proof.
  apply (@closest_datapoint_nearest exact_ops
    (TICWidget.mk [] true [1; 2; 4] [5; 6; 7] [] [] None None [] [] 0)
    (5 # 2)); [exact exact_ops_ieee|simpl; sorted_Q|discriminate].
Defined.

(** X8: the closest-point search raises [IndexError] exactly when no
    samples are loaded; it never raises the [ValueError] that
    [mouseDoubleClickEvent] catches around it. *)
Theorem closest_datapoint_errors (ops : float_ops) (self : TICWidget.t)
    (point_x : Q) :
  (_calculate_closest_datapoint ops self point_x = IndexError
   <-> _rts self = []) /\
  _calculate_closest_datapoint ops self point_x <> ValueError.
Proof.
  destruct (_rts self) as [|h t] eqn:E.
  - rewrite (@closest_datapoint_empty ops self point_x E).
    split; [tauto|discriminate].
  - assert (Hne : _rts self <> []) by (rewrite E; discriminate).
    destruct (closest_datapoint_general ops self point_x Hne)
      as (_ & _ & H).
    rewrite H. split; [|discriminate].
    split; [discriminate|]. rewrite <- E. intro H0. contradiction.
Qed.

Lemma getitem_Z_nat xs i :
  (i < length xs)%nat -> getitem_Z xs (Z.of_nat i) = Ok (at_ xs i).
Proof.
  intro Hi. rewrite getitem_Z_ok by lia. now rewrite Nat2Z.id.
Qed.

(** X9: on sorted, non-empty retention times a click inside the plot of a
    widget whose [_existTIC] is on emits the retention time of a sample at
    the least computed distance from the click; a click outside the plot,
    or on a widget whose [_existTIC] is off, emits nothing. *)
Theorem clicked_emits_nearest (ops : float_ops) (self : TICWidget.t)
    (mouse_x : Q) :
  ieee ops -> Sorted Qle (_rts self) -> _rts self <> [] ->
  (_existTIC self = true ->
   exists rt, _clicked ops self true mouse_x = Ok (Some rt) /\
              nearest_sample ops (_rts self) mouse_x rt) /\
  (_existTIC self = true -> _clicked ops self false mouse_x = Ok None) /\
  (_existTIC self = false ->
   forall inside, _clicked ops self inside mouse_x = Ok None).
Proof.
  intros Hops Hs Hne. split; [|split].
  - intro He.
    destruct (@closest_datapoint_near ops self mouse_x Hops Hs Hne)
      as (idx & Hr & Hi & Hnear).
    exists (at_ (_rts self) idx). split; [|exact Hnear].
    unfold _clicked. rewrite He, Hr. cbn [bind].
    now rewrite getitem_Z_nat.
  - intro He. unfold _clicked. now rewrite He.
  - intros He inside. unfold _clicked. now rewrite He.
Qed.

Lemma clicked_emits_nearest_witness :
  exists rt,
    _clicked exact_ops
      (TICWidget.mk [] true [1; 2; 4] [5; 6; 7] [] [] None None [] [] 0)
      true (5 # 2) = Ok (Some rt) /\
    nearest_sample exact_ops [1; 2; 4] (5 # 2) rt.
Proof.
  apply (proj1 (@clicked_emits_nearest exact_ops
    (TICWidget.mk [] true [1; 2; 4] [5; 6; 7] [] [] None None [] [] 0)
    (5 # 2) exact_ops_ieee ltac:(simpl; sorted_Q) ltac:(discriminate))).
  reflexivity.
Defined.

(** X10: on sorted, non-empty retention times [_rtRegionBounds] keeps the
    start of the dragged region as it is and moves its end onto a sample
    at the least computed distance from it; with no samples loaded it
    raises [IndexError]. *)
Theorem rtRegionBounds_snaps_end (ops : float_ops) (self : TICWidget.t)
    (region_bounds : Q * Q) :
  (ieee ops -> Sorted Qle (_rts self) -> _rts self <> [] ->
   exists stop_rg,
     _rtRegionBounds ops self region_bounds
       = Ok (fst region_bounds, stop_rg) /\
     nearest_sample ops (_rts self) (snd region_bounds) stop_rg) /\
  (_rts self = [] -> _rtRegionBounds ops self region_bounds = IndexError).
Proof.
  split.
  - intros Hops Hs Hne.
    destruct (@closest_datapoint_near ops self (snd region_bounds)
                Hops Hs Hne)
      as (idx & Hr & Hi & Hnear).
    exists (at_ (_rts self) idx). split; [|exact Hnear].
    unfold _rtRegionBounds. rewrite Hr. cbn [bind].
    now rewrite getitem_Z_nat.
  - intro He. unfold _rtRegionBounds.
    now rewrite (@closest_datapoint_empty ops self (snd region_bounds) He).
Qed.

Lemma rtRegionBounds_snaps_end_witness :
  exists stop_rg,
    _rtRegionBounds exact_ops
      (TICWidget.mk [] true [1; 2; 4] [5; 6; 7] [] [] None None [] [] 0)
      (1, 5 # 2) = Ok (1, stop_rg) /\
    nearest_sample exact_ops [1; 2; 4] (5 # 2) stop_rg.
Proof.
  apply (proj1 (@rtRegionBounds_snaps_end exact_ops
    (TICWidget.mk [] true [1; 2; 4] [5; 6; 7] [] [] None None [] [] 0)
    (1, 5 # 2)));
    [exact exact_ops_ieee|simpl; sorted_Q|discriminate].
Defined.

(** ** Drawing the labels *)

Lemma dict_set_In {V} (d : dict V) k v k' v' :
  In (k', v') (dict_set d k v) -> (k', v') = (k, v) \/ In (k', v') d.
Proof.
  induction d as [|[k0 v0] d IH]; simpl.
  - intros [H|[]]. left. now symmetry.
  - destruct (k0 =? k)%nat eqn:E; simpl.
    + apply Nat.eqb_eq in E. subst k0.
      intros [H|H]; [left; now symmetry|right; now right].
    + intros [H|H]; [right; now left|].
      destruct (IH H) as [H'|H']; [now left|right; now right].
Qed.

Lemma dict_del_In {V} (d : dict V) k k' v' :
  In (k', v') (dict_del d k) -> In (k', v') d /\ k' <> k.
Proof.
  unfold dict_del. rewrite filter_In. intros [Hin Hk]. split; [exact Hin|].
  simpl in Hk. apply negb_true_iff, Nat.eqb_neq in Hk. exact Hk.
Qed.

Section DrawFacts.
Variable Rect : Type.
Variable deviceRect : TextItem -> Rect.
Variable intersects : Rect -> Rect -> bool.
Variable pixel_width : Q.
Variable arith : float_ops.

Let add_label := _add_label deviceRect intersects pixel_width arith.
Let apart := labels_apart deviceRect intersects pixel_width arith.
Let clashes := clashes_with deviceRect intersects pixel_width arith.

(** The two outcomes of [_add_label]. *)
Lemma add_label_result self label_id label_text x y :
  let label := mkText (next_id self) label_text x y in
  let placed := place_label self label_id label in
  (clashes (_peak_labels self) label_id label /\
   add_label self label_id label_text x y
     = Ok (set_peak_labels (removeItem placed label)
             (dict_del (_peak_labels placed) label_id))) \/
  (~ clashes (_peak_labels self) label_id label /\
   add_label self label_id label_text x y = Ok placed).
Proof.
  intros label placed.
  destruct (@label_clashes_placed Rect deviceRect intersects pixel_width arith
              self label_id label) as (b & Hb & Hiff).
  fold placed in Hb.
  unfold add_label, _add_label. fold label. fold placed.
  rewrite Hb. cbn [bind]. destruct b.
  - left. split; [now apply Hiff|].
    unfold _remove_label.
    replace (dict_get (_peak_labels placed) label_id) with (Some label);
      [reflexivity|].
    symmetry. unfold placed. rewrite place_label_labels.
    apply dict_get_set_same.
  - right. split; [|reflexivity]. intro Hc. apply Hiff in Hc.
    discriminate Hc.
Qed.

Lemma add_label_step self label_id label_text x y s' :
  add_label self label_id label_text x y = Ok s' ->
  same_data self s' /\ next_id s' = S (next_id self) /\
  forall k l, In (k, l) (_peak_labels s') ->
    In (k, l) (_peak_labels self) \/
    (k = label_id /\ l = mkText (next_id self) label_text x y /\
     ~ clashes (_peak_labels self) label_id l).
Proof.
  intro H.
  destruct (add_label_result self label_id label_text x y)
    as [[Hc Hr]|[Hc Hr]]; rewrite Hr in H; injection H as <-.
  - split; [unfold same_data; cbn; repeat split|].
    split; [reflexivity|].
    intros k l Hin. cbn in Hin. apply dict_del_In in Hin.
    destruct Hin as [Hin Hk]. apply dict_set_In in Hin.
    destruct Hin as [Heq|Hin]; [injection Heq as -> _; congruence|].
    now left.
  - split; [unfold same_data; cbn; repeat split|].
    split; [reflexivity|].
    intros k l Hin. cbn in Hin. apply dict_set_In in Hin.
    destruct Hin as [Heq|Hin]; [|now left].
    injection Heq as -> ->. right. auto.
Qed.

Lemma add_label_keeps_apart self label_id label_text x y s' :
  add_label self label_id label_text x y = Ok s' ->
  ids_fresh self -> apart (_peak_labels self) ->
  ids_fresh s' /\ apart (_peak_labels s').
Proof.
  intros H Hfresh Hapart.
  destruct (@add_label_step self label_id label_text x y s' H)
    as (_ & Hnext & Hin).
  split.
  - intros k l Hl. rewrite Hnext.
    destruct (Hin k l Hl) as [Hold|(_ & -> & _)].
    + specialize (Hfresh k l Hold). lia.
    + simpl. lia.
  - intros k1 l1 k2 l2 H1 H2 Hk Hid.
    destruct (Hin k1 l1 H1) as [Hold1|(-> & -> & Hc1)];
      destruct (Hin k2 l2 H2) as [Hold2|(-> & -> & Hc2)].
    + now apply (Hapart k1 l1 k2 l2).
    + intro Hcol. apply Hc2. exists k1, l1. auto.
    + specialize (Hfresh k2 l2 Hold2). simpl in Hid. lia.
    + congruence.
Qed.

Lemma getitem_Ok (arr : list Q) i a :
  getitem arr i = Ok a -> (i < length arr)%nat /\ a = at_ arr i.
Proof.
  unfold getitem. destruct (nth_error arr i) as [v|] eqn:E; [|discriminate].
  intro H. injection H as <-. split.
  - apply nth_error_Some. congruence.
  - unfold at_. symmetry. now apply nth_error_nth.
Qed.

Lemma getitem_in_range (arr : list Q) i :
  (i < length arr)%nat -> getitem arr i = Ok (at_ arr i).
Proof.
  intro Hi. unfold getitem, at_.
  now rewrite (nth_error_nth' arr 0 Hi).
Qed.

Lemma label_of_sample_same s s' k l :
  same_data s s' -> label_of_sample s k l -> label_of_sample s' k l.
Proof.
  intros (_ & Hr & Hi & _ & Hc & _). unfold label_of_sample.
  now rewrite Hr, Hi, Hc.
Qed.

Lemma same_data_trans s1 s2 s3 :
  same_data s1 s2 -> same_data s2 s3 -> same_data s1 s3.
Proof.
  unfold same_data.
  intros (A1 & A2 & A3 & A4 & A5 & A6 & A7 & A8)
         (B1 & B2 & B3 & B4 & B5 & B6 & B7 & B8).
  repeat split; congruence.
Qed.

Lemma same_data_sym s1 s2 : same_data s1 s2 -> same_data s2 s1.
Proof.
  unfold same_data. intros (A1 & A2 & A3 & A4 & A5 & A6 & A7 & A8).
  repeat split; congruence.
Qed.

Lemma same_data_refl s : same_data s s.
Proof. unfold same_data. repeat split. Qed.

(** What a finished run of the label loop has kept and added. *)
Lemma draw_loop_inv indices :
  forall self s',
    draw_loop deviceRect intersects pixel_width arith self indices = Ok s' ->
    ids_fresh self -> apart (_peak_labels self) ->
    same_data self s' /\ ids_fresh s' /\ apart (_peak_labels s') /\
    forall k l, In (k, l) (_peak_labels s') ->
      In (k, l) (_peak_labels self) \/
      (In k indices /\ label_of_sample self k l).
Proof.
  induction indices as [|index rest IH]; intros self s' H Hfresh Hapart.
  - injection H as <-. split; [apply same_data_refl|]. auto.
  - cbn [draw_loop] in H.
    destruct (getitem (_ints self) index) as [y| | | |] eqn:Ey;
      try discriminate H.
    cbn [bind] in H.
    destruct (contains (_currentIntensitiesInRange self) y) eqn:Ec.
    + destruct (getitem (_rts self) index) as [x| | | |] eqn:Ex;
        try discriminate H.
      cbn [bind] in H.
      destruct (_add_label deviceRect intersects pixel_width arith self index
                  x x y) as [s1| | | |] eqn:Ea; try discriminate H.
      cbn [bind] in H.
      destruct (@add_label_step self index x x y s1 Ea)
        as (Hsame1 & _ & Hin1).
      destruct (@add_label_keeps_apart self index x x y s1 Ea Hfresh Hapart)
        as (Hfresh1 & Hapart1).
      destruct (IH s1 s' H Hfresh1 Hapart1)
        as (Hsame & Hfresh' & Hapart' & Hin).
      split; [now apply (@same_data_trans self s1 s')|].
      split; [exact Hfresh'|]. split; [exact Hapart'|].
      intros k l Hl. destruct (Hin k l Hl) as [Hl1|[Hk Hs]].
      * destruct (Hin1 k l Hl1) as [Hold|(-> & -> & _)]; [now left|].
        right. split; [now left|].
        apply getitem_Ok in Ey. apply getitem_Ok in Ex.
        destruct Ey as [Hy ->]. destruct Ex as [Hx ->].
        unfold label_of_sample. simpl. auto 10.
      * right. split; [now right|].
        apply (@label_of_sample_same s1 self k l); [|exact Hs].
        now apply same_data_sym.
    + destruct (IH self s' H Hfresh Hapart)
        as (Hsame & Hfresh' & Hapart' & Hin).
      split; [exact Hsame|]. split; [exact Hfresh'|].
      split; [exact Hapart'|].
      intros k l Hl. destruct (Hin k l Hl) as [Hold|[Hk Hs]]; [now left|].
      right. split; [now right|exact Hs].
Qed.

(** The label loop succeeds when every index it is given is inside the
    data. *)
Lemma draw_loop_ok indices :
  forall self,
    Forall (fun i => (i < length (_rts self))%nat /\
                     (i < length (_ints self))%nat) indices ->
    exists s', draw_loop deviceRect intersects pixel_width arith self indices
               = Ok s'.
Proof.
  induction indices as [|index rest IH]; intros self Hall.
  - now exists self.
  - inversion Hall as [|? ? [Hr Hi] Hrest]; subst. cbn [draw_loop].
    rewrite (@getitem_in_range (_ints self) index Hi). cbn [bind].
    destruct (contains _ _); [|now apply IH].
    rewrite (@getitem_in_range (_rts self) index Hr). cbn [bind].
    destruct (add_label_result self index (at_ (_rts self) index)
                (at_ (_rts self) index) (at_ (_ints self) index))
      as [[_ Hres]|[_ Hres]]; unfold add_label in Hres; rewrite Hres;
      cbn [bind]; apply IH; exact Hrest.
Qed.

Lemma clear_labels_same self : same_data self (_clear_labels self).
Proof.
  destruct (remove_all_fields (_peak_labels self) self)
    as (_ & A1 & A2 & A3 & A4 & A5 & A6 & A7 & A8 & _).
  unfold same_data, _clear_labels. cbn. auto 10.
Qed.

Lemma redrawLabels_inv self s' :
  _redrawLabels deviceRect intersects pixel_width arith self = Ok s' ->
  same_data self s' /\ apart (_peak_labels s') /\
  forall k l, In (k, l) (_peak_labels s') ->
    In k (_peak_indices self) /\ label_of_sample self k l.
Proof.
  unfold _redrawLabels, _draw_peak_label.
  assert (Hsame := clear_labels_same self).
  set (c := _clear_labels self) in *.
  assert (Hl : _peak_labels c = []) by reflexivity.
  rewrite Hl. intro H.
  assert (Hfresh : ids_fresh c) by (intros k l; rewrite Hl; intros []).
  assert (Hapart : apart (_peak_labels c))
    by (rewrite Hl; intros k1 l1 k2 l2 []).
  destruct (@draw_loop_inv (_peak_indices c) c s' H Hfresh Hapart)
    as (Hs & _ & Ha & Hin).
  split; [now apply (@same_data_trans self c s')|]. split; [exact Ha|].
  intros k l Hkl. destruct (Hin k l Hkl) as [Hold|[Hk Hsample]].
  - rewrite Hl in Hold. destruct Hold.
  - destruct Hsame as (_ & _ & _ & Hp & _). rewrite Hp in Hk.
    split; [exact Hk|].
    apply (@label_of_sample_same c self k l); [|exact Hsample].
    apply same_data_sym, clear_labels_same.
Qed.

(** X11: after [_redrawLabels] no label left in the collection collides
    with a label of another peak that was placed before it: the device
    rectangles do not intersect and the computed distance of the anchors
    in x is not below the computed limit [20.0 * pixel_width]. *)
Theorem redrawLabels_no_collision (self s' : TICWidget.t) :
  _redrawLabels deviceRect intersects pixel_width arith self = Ok s' ->
  labels_apart deviceRect intersects pixel_width arith (_peak_labels s').
Proof. intro H. now apply redrawLabels_inv in H. Qed.

(** X12: after [_redrawLabels] every label belongs to one of the peak
    indices, to a peak whose intensity occurs among the intensities of the
    visible range, and carries the retention time of that sample as its
    text and the sample's coordinates as its position; the data of the
    widget is untouched. *)
Theorem redrawLabels_annotate_peaks (self s' : TICWidget.t) :
  _redrawLabels deviceRect intersects pixel_width arith self = Ok s' ->
  same_data self s' /\
  forall k l, In (k, l) (_peak_labels s') ->
    In k (_peak_indices self) /\ label_of_sample self k l.
Proof. intro H. apply redrawLabels_inv in H. tauto. Qed.

End DrawFacts.

Lemma sample_redraw_run :
  _redrawLabels (fun _ : TextItem => tt) (fun _ _ => false) 1 exact_ops
    sample_widget
  = Ok sample_redrawn.
Proof. vm_compute. reflexivity. Qed.

Lemma redrawLabels_no_collision_witness :
  map fst (_peak_labels sample_redrawn) = [0; 2]%nat /\
  labels_apart (fun _ : TextItem => tt) (fun _ _ => false) 1 exact_ops
    (_peak_labels sample_redrawn).
Proof.
  split; [reflexivity|].
  exact (@redrawLabels_no_collision unit (fun _ => tt) (fun _ _ => false)
           1 exact_ops sample_widget sample_redrawn sample_redraw_run).
Defined.

Lemma redrawLabels_annotate_peaks_witness :
  same_data sample_widget sample_redrawn /\
  forall k l, In (k, l) (_peak_labels sample_redrawn) ->
    In k (_peak_indices sample_widget) /\
    label_of_sample sample_widget k l.
Proof.
  exact (@redrawLabels_annotate_peaks unit (fun _ => tt) (fun _ _ => false)
           1 exact_ops sample_widget sample_redrawn sample_redraw_run).
Defined.

(** ** The y-axis after an autoscale *)

Lemma amax_initial_nonzero arr : Qeq_bool (amax_initial arr 1) 0 = false.
Proof.
  destruct (amax_initial_spec arr 1) as (Hge & _).
  destruct (Qeq_bool (amax_initial arr 1) 0) eqn:E; [|reflexivity].
  apply Qeq_bool_iff in E. rewrite E in Hge. exfalso. now apply Hge.
Qed.

Lemma extent_covers xs lo hi i :
  minimum_of xs lo -> maximum_of xs hi -> (i < length xs)%nat ->
  lo <= at_ xs i <= hi.
Proof.
  intros [_ Hmin] [_ Hmax] Hi. split; [apply Hmin|apply Hmax]; now apply at_In.
Qed.

Section AutoscaleFacts.
Variable Rect : Type.
Variable deviceRect : TextItem -> Rect.
Variable intersects : Rect -> Rect -> bool.
Variable pixel_width : Q.
Variable arith : float_ops.

Lemma rescale_to_range self lo hi s' :
  Sorted Qle (_rts self) -> length (_rts self) = length (_ints self) ->
  rescale_to deviceRect intersects pixel_width arith self (lo, hi) = Ok s' ->
  exists y,
    currMaxY s' = Some y /\ yRange s' = Some (0, y) /\ 1 <= y /\
    (forall i, (i < length (_rts self))%nat ->
               lo <= at_ (_rts self) i <= hi -> at_ (_ints self) i <= y) /\
    _rts s' = _rts self /\ _ints s' = _ints self.
Proof.
  intros Hs Hlen H. unfold rescale_to, _getMaxIntensityInRange in H.
  cbn [fst snd] in H.
  rewrite amax_initial_nonzero in H.
  set (y := amax_initial
              (slice (_ints self) (searchsorted (_rts self) lo SideLeft)
                     (searchsorted (_rts self) hi SideRight)) 1) in *.
  apply (@redrawLabels_inv Rect deviceRect intersects pixel_width arith) in H.
  destruct H as ((_ & Hr & Hi & _ & _ & Hc & Hy & _) & _).
  cbn in Hr, Hi, Hc, Hy.
  exists y. split; [exact Hc|]. split; [exact Hy|].
  assert (Hw := @window_max_correct (_rts self) (_ints self)
                  (fun v => v) lo hi Hs Hlen).
  rewrite map_id in Hw. fold y in Hw.
  destruct Hw as (H1 & Hall & _).
  split; [exact H1|]. split; [exact Hall|]. split; assumption.
Qed.

(** X13: after an autoscale of the intensity plot on sorted data the
    y-axis runs from 0 to a value of at least 1 that no intensity of the
    effective window exceeds: with a reported range other than [[0, 1]]
    every sample whose retention time lies in the range fits, and with the
    unset range every sample fits. *)
Theorem autoscale_fits_intensities (self s' : TICWidget.t)
    (x_range : axis_range) :
  Sorted Qle (_rts self) -> length (_rts self) = length (_ints self) ->
  _autoscaleYAxis deviceRect intersects pixel_width arith self x_range
    = Ok s' ->
  exists y,
    yRange s' = Some (0, y) /\ 1 <= y /\
    (~ unset_range x_range ->
     forall i, (i < length (_rts self))%nat ->
       fst x_range <= at_ (_rts self) i <= snd x_range ->
       at_ (_ints self) i <= y) /\
    (unset_range x_range ->
     forall i, (i < length (_rts self))%nat -> at_ (_ints self) i <= y).
Proof.
  intros Hs Hlen H. unfold _autoscaleYAxis in H.
  destruct (is_unset_range x_range) eqn:E.
  - destruct (_rts self) as [|h t] eqn:Er; [discriminate H|].
    assert (Hne : _rts self <> []) by (rewrite Er; discriminate).
    rewrite <- Er in *.
    destruct (data_extent_spec Hne) as (lo & hi & He & Hmin & Hmax).
    rewrite He in H. cbn [bind] in H.
    destruct (@rescale_to_range self lo hi s' Hs Hlen H)
      as (y & _ & Hy & H1 & Hall & _).
    exists y. split; [exact Hy|]. split; [exact H1|]. split.
    + intro Hn. apply is_unset_range_iff in E. contradiction.
    + intros _ i Hi. apply Hall; [exact Hi|].
      now apply (@extent_covers (_rts self) lo hi i).
  - cbn [bind] in H. destruct x_range as [lo hi].
    destruct (@rescale_to_range self lo hi s' Hs Hlen H)
      as (y & _ & Hy & H1 & Hall & _).
    exists y. split; [exact Hy|]. split; [exact H1|]. split.
    + intros _ i Hi Hw. now apply Hall.
    + intro Hu. apply is_unset_range_iff in Hu. congruence.
Qed.
End AutoscaleFacts.

Lemma sample_autoscale_run :
  _autoscaleYAxis (fun _ : TextItem => tt) (fun _ _ => false) 0 exact_ops
    sample_widget (0, 50) = Ok sample_autoscaled.
Proof. vm_compute. reflexivity. Qed.

Lemma autoscale_fits_intensities_witness :
  exists y,
    yRange sample_autoscaled = Some (0, y) /\ 1 <= y /\
    (~ unset_range (0, 50) ->
     forall i, (i < 3)%nat ->
       0 <= at_ [0; 10; 100] i <= 50 -> at_ [5; 3; 4] i <= y) /\
    (unset_range (0, 50) ->
     forall i, (i < 3)%nat -> at_ [5; 3; 4] i <= y).
Proof.
  apply (@autoscale_fits_intensities unit (fun _ => tt) (fun _ _ => false)
           0 exact_ops sample_widget sample_autoscaled (0, 50)).
  - simpl. sorted_Q.
  - reflexivity.
  - exact sample_autoscale_run.
Defined.

(** X14: after an autoscale of the error plot on sorted data the y-axis is
    symmetric, from [-y] to [y] with [y] at least 1, and no error of the
    effective window falls outside it: with a reported range other than
    [[0, 1]] every point whose m/z lies in the range fits, and with the
    unset range every point fits. *)
Theorem error_autoscale_fits (self s' : ErrorWidget.t)
    (x_range : axis_range) :
  Sorted Qle (ErrorWidget._mzs self) ->
  length (ErrorWidget._mzs self) = length (ErrorWidget._ppm self) ->
  ErrorWidget._autoscaleYAxis self x_range = Ok s' ->
  exists y,
    ErrorWidget.yRange s' = Some (y * (-1), y) /\ 1 <= y /\
    (~ unset_range x_range ->
     forall i, (i < length (ErrorWidget._mzs self))%nat ->
       fst x_range <= at_ (ErrorWidget._mzs self) i <= snd x_range ->
       y * (-1) <= at_ (ErrorWidget._ppm self) i <= y) /\
    (unset_range x_range ->
     forall i, (i < length (ErrorWidget._mzs self))%nat ->
       y * (-1) <= at_ (ErrorWidget._ppm self) i <= y).
Proof.
  intros Hs Hlen H.
  assert (Hfit : forall lo hi,
    let y := ErrorWidget._getMaxMassErrorInRange self (lo, hi) in
    ErrorWidget.yRange (ErrorWidget.rescale_to self (lo, hi))
      = Some (y * (-1), y) /\ 1 <= y /\
    forall i, (i < length (ErrorWidget._mzs self))%nat ->
      lo <= at_ (ErrorWidget._mzs self) i <= hi ->
      y * (-1) <= at_ (ErrorWidget._ppm self) i <= y).
  { intros lo hi. cbv zeta.
    assert (Hw := @window_max_correct (ErrorWidget._mzs self)
                    (ErrorWidget._ppm self) Qabs lo hi Hs Hlen).
    change (amax_initial _ 1)
      with (ErrorWidget._getMaxMassErrorInRange self (lo, hi)) in Hw.
    assert (Hnz : Qeq_bool (ErrorWidget._getMaxMassErrorInRange self
                              (lo, hi)) 0 = false)
      by apply amax_initial_nonzero.
    unfold ErrorWidget.rescale_to. cbn [ErrorWidget.yRange]. rewrite Hnz.
    set (y := ErrorWidget._getMaxMassErrorInRange self (lo, hi)) in *.
    clearbody y. destruct Hw as (H1 & Hall & _).
    split; [reflexivity|]. split; [exact H1|].
    intros i Hi Hwin. specialize (Hall i Hi Hwin).
    apply Qabs_Qle_condition in Hall. destruct Hall as [Ha Hb].
    split; [|exact Hb]. lra. }
  unfold ErrorWidget._autoscaleYAxis in H.
  destruct (is_unset_range x_range) eqn:E.
  - destruct (ErrorWidget._mzs self) as [|h t] eqn:Er; [discriminate H|].
    assert (Hne : ErrorWidget._mzs self <> []) by (rewrite Er; discriminate).
    rewrite <- Er in *.
    destruct (data_extent_spec Hne) as (lo & hi & He & Hmin & Hmax).
    rewrite He in H. cbn [bind] in H. injection H as <-.
    destruct (Hfit lo hi) as (Hy & H1 & Hall).
    eexists. split; [exact Hy|]. split; [exact H1|]. split.
    + intro Hn. apply is_unset_range_iff in E. contradiction.
    + intros _ i Hi. apply Hall; [exact Hi|].
      now apply (@extent_covers (ErrorWidget._mzs self) lo hi i).
  - cbn [bind] in H. injection H as <-. destruct x_range as [lo hi].
    destruct (Hfit lo hi) as (Hy & H1 & Hall).
    eexists. split; [exact Hy|]. split; [exact H1|]. split.
    + intros _ i Hi Hw. now apply Hall.
    + intro Hu. apply is_unset_range_iff in Hu. congruence.
Qed.

Lemma error_autoscale_fits_witness :
  exists y,
    ErrorWidget.yRange
      (ErrorWidget.rescale_to
         (ErrorWidget.mk [1; 2; 3] [5; -6; 7] None None) (1, 2))
      = Some (y * (-1), y) /\ 1 <= y /\
    (~ unset_range (1, 2) ->
     forall i, (i < 3)%nat ->
       1 <= at_ [1; 2; 3] i <= 2 ->
       y * (-1) <= at_ [5; -6; 7] i <= y) /\
    (unset_range (1, 2) ->
     forall i, (i < 3)%nat -> y * (-1) <= at_ [5; -6; 7] i <= y).
Proof.
  apply (@error_autoscale_fits
           (ErrorWidget.mk [1; 2; 3] [5; -6; 7] None None)
           (ErrorWidget.rescale_to
              (ErrorWidget.mk [1; 2; 3] [5; -6; 7] None None) (1, 2))
           (1, 2)).
  - simpl. sorted_Q.
  - reflexivity.
  - reflexivity.
Defined.

(** ** A data-set update on a live widget *)

Section LiveUpdate.
Variable Rect : Type.
Variable deviceRect : TextItem -> Rect.
Variable intersects : Rect -> Rect -> bool.
Variable pixel_width : Q.
Variable arith : float_ops.
Variable rt_arith : float_ops.
Variable int_arith : float_ops.

Let apart := labels_apart deviceRect intersects pixel_width arith.

(** The labels of a widget all annotate peaks of its own data. *)
Let annotated (s : TICWidget.t) : Prop :=
  forall k l, In (k, l) (_peak_labels s) ->
              In k (_peak_indices s) /\ label_of_sample s k l.

Let indices_valid (s : TICWidget.t) : Prop :=
  Forall (fun i => (i < length (_rts s))%nat /\
                   (i < length (_ints s))%nat) (_peak_indices s).

Lemma annotated_same s s' :
  same_data s s' -> _peak_labels s' = _peak_labels s ->
  annotated s -> annotated s'.
Proof.
  intros Hsame Hl Ha k l Hin. rewrite Hl in Hin.
  destruct (Ha k l Hin) as [Hk Hs]. split.
  - destruct Hsame as (_ & _ & _ & Hp & _). now rewrite Hp.
  - now apply (@label_of_sample_same s s' k l).
Qed.

Lemma draw_peak_label_ok self :
  indices_valid self -> apart (_peak_labels self) -> annotated self ->
  exists s',
    _draw_peak_label deviceRect intersects pixel_width arith self = Ok s' /\
    same_data self s' /\ apart (_peak_labels s') /\ annotated s'.
Proof.
  intros Hv Hap Han. unfold _draw_peak_label.
  destruct (_peak_labels self) as [|e d] eqn:El.
  - destruct (@draw_loop_ok Rect deviceRect intersects pixel_width arith
                (_peak_indices self) self Hv) as (s' & Hs').
    exists s'. split; [exact Hs'|].
    assert (Hfresh : ids_fresh self) by (intros k l; rewrite El; intros []).
    destruct (@draw_loop_inv Rect deviceRect intersects pixel_width arith
                (_peak_indices self) self s' Hs' Hfresh)
      as (Hsame & _ & Ha & Hin).
    { rewrite El. intros k1 l1 k2 l2 []. }
    split; [exact Hsame|]. split; [exact Ha|].
    intros k l Hkl. destruct (Hin k l Hkl) as [Hold|[Hk Hs]].
    + rewrite El in Hold. destruct Hold.
    + split.
      * destruct Hsame as (_ & _ & _ & Hp & _). now rewrite Hp.
      * now apply (@label_of_sample_same self s' k l).
  - exists self. split; [reflexivity|]. split; [apply same_data_refl|].
    rewrite El. split; assumption.
Qed.

Lemma redrawLabels_ok self :
  indices_valid self ->
  exists s',
    _redrawLabels deviceRect intersects pixel_width arith self = Ok s' /\
    same_data self s' /\ apart (_peak_labels s') /\ annotated s'.
Proof.
  intro Hv. unfold _redrawLabels.
  assert (Hsame := clear_labels_same self).
  destruct (@draw_peak_label_ok (_clear_labels self))
    as (s' & H & Hs & Ha & Hn).
  - unfold indices_valid in *.
    destruct Hsame as (_ & Hr & Hi & Hp & _). now rewrite Hr, Hi, Hp.
  - intros k1 l1 k2 l2 [].
  - intros k l [].
  - exists s'. split; [exact H|].
    split; [now apply (@same_data_trans self (_clear_labels self) s')|].
    split; assumption.
Qed.

Lemma rescale_to_ok self w :
  indices_valid self ->
  exists s',
    rescale_to deviceRect intersects pixel_width arith self w = Ok s' /\
    tic_rescaled self w s' /\
    _existTIC s' = _existTIC self /\
    _peak_indices s' = _peak_indices self /\
    curves s' = curves self /\
    apart (_peak_labels s') /\ annotated s'.
Proof.
  intro Hv. unfold tic_rescaled, rescale_to, _getMaxIntensityInRange.
  cbn [fst snd]. rewrite amax_initial_nonzero.
  match goal with
  | |- exists s', _redrawLabels _ _ _ _ ?st = Ok s' /\ _ =>
      destruct (@redrawLabels_ok st Hv) as (s' & H & Hs & Ha & Hn)
  end.
  exists s'. split; [exact H|].
  destruct Hs as (A1 & A2 & A3 & A4 & A5 & A6 & A7 & A8).
  cbn in A1, A2, A3, A4, A5, A6, A7, A8. auto 12.
Qed.

Lemma autoscale_ok self x_range :
  _rts self <> [] -> indices_valid self ->
  exists s',
    _autoscaleYAxis deviceRect intersects pixel_width arith self x_range
      = Ok s' /\
    _existTIC s' = _existTIC self /\ _rts s' = _rts self /\
    _ints s' = _ints self /\ _peak_indices s' = _peak_indices self /\
    curves s' = curves self /\
    apart (_peak_labels s') /\ annotated s'.
Proof.
  intros Hne Hv. unfold _autoscaleYAxis.
  assert (Hwin : exists w,
    (if is_unset_range x_range then data_extent (_rts self) else Ok x_range)
      = Ok w).
  { destruct (is_unset_range x_range); [|now exists x_range].
    destruct (data_extent_spec Hne) as (lo & hi & He & _).
    now exists (lo, hi). }
  destruct Hwin as (w & ->). cbn [bind].
  destruct (@rescale_to_ok self w Hv)
    as (s' & H & (_ & _ & _ & Hr & Hi) & He & Hp & Hc & Ha & Hn).
  exists s'. auto 10.
Qed.


(** X15: on a widget whose [_existTIC] is on, [setTIC] with a chromatogram
    whose greatest intensity is not zero never raises and rebuilds
    everything from the new data: the retention times divided by 60, the
    intensities divided by the greatest one and multiplied by 100 (each
    result as the arithmetic of the array rounds it), the peak indices of
    those intensities, and one plotted curve; every label it leaves
    annotates a peak of the new data, and no label collides with one
    placed before it. *)
Theorem setTIC_rebuilds (self : TICWidget.t) (chromatogram : list (Q * Q))
    (x_range : axis_range) (maxInt : Q) :
  _existTIC self = true ->
  amax (map snd chromatogram) = Ok maxInt -> ~ maxInt == 0 ->
  exists s' : TICWidget.t,
    setTIC deviceRect intersects pixel_width arith rt_arith int_arith
      self chromatogram x_range = Ok s' /\
    _existTIC s' = true /\
    _rts s' = map (fun x => fdiv rt_arith x 60) (map fst chromatogram) /\
    _ints s' = map (fun x => fmul int_arith (fdiv int_arith x maxInt) 100)
                   (map snd chromatogram) /\
    _peak_indices s' = _find_Peak (_ints s') /\
    curves s' = [([], []); (_rts s', _ints s')] /\
    labels_apart deviceRect intersects pixel_width arith (_peak_labels s') /\
    forall k l, In (k, l) (_peak_labels s') ->
      In k (_peak_indices s') /\ label_of_sample s' k l.
Proof.
  intros He Hmax Hnz.
  destruct chromatogram as [|[rt0 int0] rest] eqn:Echrom;
    [discriminate Hmax|].
  rewrite <- Echrom in *.
  unfold setTIC.
  set (self1 := match _peak_labels self with
                | [] => self
                | _ => set_peak_labels (_clear_labels self) []
                end).
  assert (He1 : _existTIC self1 = true).
  { unfold self1. destruct (_peak_labels self); [exact He|].
    cbn. destruct (clear_labels_same self) as (H & _).
    unfold _clear_labels in H. cbn in H. now rewrite H. }
  assert (Hcheck :
    checkExistTIC
      (set_data self1 (map fst chromatogram) (map snd chromatogram))
    = set_data self1 (map fst chromatogram) (map snd chromatogram)).
  { unfold checkExistTIC. cbn [set_data _rts]. now rewrite Echrom. }
  rewrite Hcheck. cbn [set_data _existTIC]. rewrite He1.
  unfold _relative_ints. cbn [_rts_in_min set_data _ints _rts].
  rewrite Hmax. cbn [bind]. rewrite (Qeq_bool_false Hnz). cbn [bind].
  match goal with
  | |- exists s',
         (x <- _autoscaleYAxis _ _ _ _ ?st _ ;; _) = Ok s' /\ _ =>
      set (self5 := st)
  end.
  assert (Hlen : length (_rts self5) = length (_ints self5)).
  { unfold self5. cbn. now rewrite !length_map. }
  assert (Hv : indices_valid self5).
  { unfold indices_valid. apply Forall_forall. intros i Hi.
    unfold self5 in Hi. cbn [_peak_indices] in Hi.
    apply find_Peak_In in Hi. destruct Hi as [Hi _]. split; [|exact Hi].
    rewrite Hlen. exact Hi. }
  assert (Hne5 : _rts self5 <> []).
  { unfold self5. cbn. rewrite Echrom. discriminate. }
  destruct (@autoscale_ok self5 x_range Hne5 Hv)
    as (s6 & H6 & E6 & R6 & I6 & P6 & C6 & Ha6 & Hn6).
  rewrite H6. cbn [bind]. unfold redrawPlot.
  set (s7 := _plot_tic (plot_clear s6)).
  assert (L7 : _peak_labels s7 = _peak_labels s6) by reflexivity.
  assert (R7 : _rts s7 = _rts s6) by reflexivity.
  assert (I7 : _ints s7 = _ints s6) by reflexivity.
  assert (P7 : _peak_indices s7 = _peak_indices s6) by reflexivity.
  assert (N7 : _currentIntensitiesInRange s7
               = _currentIntensitiesInRange s6) by reflexivity.
  assert (E7 : _existTIC s7 = _existTIC s6) by reflexivity.
  assert (C7 : curves s7 = [([], []); (_rts s6, _ints s6)]) by reflexivity.
  destruct (@draw_peak_label_ok s7) as (s' & H' & Hs' & Ha' & Hn').
  - unfold indices_valid in *. now rewrite R7, I7, P7, R6, I6, P6.
  - now rewrite L7.
  - intros k l Hin. rewrite L7 in Hin. destruct (Hn6 k l Hin) as [Hk Hl].
    split; [now rewrite P7|].
    unfold label_of_sample in *. now rewrite R7, I7, N7.
  - exists s'. split; [exact H'|].
    destruct Hs' as (B1 & B2 & B3 & B4 & _ & _ & _ & B8).
    assert (Hr : _rts s'
                 = map (fun x => fdiv rt_arith x 60) (map fst chromatogram))
      by (rewrite B2, R7, R6; reflexivity).
    assert (Hi : _ints s'
                 = map (fun x => fmul int_arith (fdiv int_arith x maxInt) 100)
                       (map snd chromatogram))
      by (rewrite B3, I7, I6; reflexivity).
    split; [rewrite B1, E7, E6; exact He1|].
    split; [exact Hr|]. split; [exact Hi|].
    split; [rewrite B4, P7, P6, B3, I7, I6; reflexivity|].
    split; [rewrite B8, C7, B2, B3, R7, I7; reflexivity|].
    split; [exact Ha'|exact Hn'].
Qed.
End LiveUpdate.

Lemma setTIC_rebuilds_witness :
  exists s' : TICWidget.t,
    setTIC (fun _ : TextItem => tt) (fun _ _ => false) 0 exact_ops
      exact_ops exact_ops init first_chromatogram (0, 1) = Ok s' /\
    _existTIC s' = true /\
    _rts s' = map (fun x => fdiv exact_ops x 60)
                  (map fst first_chromatogram) /\
    _ints s' = map (fun x => fmul exact_ops (fdiv exact_ops x 4) 100)
                   (map snd first_chromatogram) /\
    _peak_indices s' = _find_Peak (_ints s') /\
    curves s' = [([], []); (_rts s', _ints s')] /\
    labels_apart (fun _ : TextItem => tt) (fun _ _ => false) 0 exact_ops
      (_peak_labels s') /\
    forall k l, In (k, l) (_peak_labels s') ->
      In k (_peak_indices s') /\ label_of_sample s' k l.
Proof.
  apply (@setTIC_rebuilds unit (fun _ => tt) (fun _ _ => false) 0
           exact_ops exact_ops exact_ops init first_chromatogram (0, 1) 4).
  - reflexivity.
  - reflexivity.
  - intro H. vm_compute in H. discriminate H.
Defined.

(** ** The window of the autoscale, on widgets with and without data *)




(** ** The error plot *)

Lemma getitem_nth {A} (arr : list A) i d :
  (i < length arr)%nat -> getitem arr i = Ok (nth i arr d).
Proof.
  intro Hi. unfold getitem. now rewrite (nth_error_nth' arr d Hi).
Qed.

Lemma getitem_out {A} (arr : list A) i :
  (length arr <= i)%nat -> getitem arr i = IndexError.
Proof.
  intro Hi. unfold getitem.
  now destruct (nth_error arr i) eqn:E;
    [apply nth_error_None in Hi; congruence|].
Qed.

Lemma plot_loop_spec k :
  forall a (v : ErrorWidget.view) points,
    let w := ErrorWidget.widget v in
    (a + k <= length (ErrorWidget._mzs w))%nat ->
    (a + k <= length (ErrorWidget._ppm w))%nat ->
    (a + k <= length (ErrorWidget._color_lib v))%nat ->
    points = map (spot_at v) (seq 0 a) ->
    exists v',
      ErrorWidget.plot_loop v points (seq a k) = Ok v' /\
      ErrorWidget.widget v' = w /\
      ErrorWidget._color_lib v' = ErrorWidget._color_lib v /\
      ErrorWidget.scatter v' = ErrorWidget.scatter v ++ added_spots v a k /\
      ErrorWidget.scatter_items v' = (ErrorWidget.scatter_items v + k)%nat /\
      ErrorWidget.horizontal_lines v' = ErrorWidget.horizontal_lines v.
Proof.
  induction k as [|k IH]; intros a v points w Hm Hp Hc Hpts.
  - exists v. cbn. rewrite app_nil_r, Nat.add_0_r. auto 10.
  - cbn [seq ErrorWidget.plot_loop]. fold w.
    rewrite (@getitem_in_range (ErrorWidget._mzs w) a) by lia.
    rewrite (@getitem_in_range (ErrorWidget._ppm w) a) by lia.
    rewrite (@getitem_nth _ (ErrorWidget._color_lib v) a (0, 0, 0)%Z) by lia.
    cbn [bind].
    set (points' := points ++ _).
    assert (Hpts' : points' = map (spot_at v) (seq 0 (S a))).
    { unfold points'. rewrite seq_S, map_app, Hpts. reflexivity. }
    set (v1 := ErrorWidget.mkView _ _ _ _ _).
    destruct (IH (S a) v1 points') as (v' & Hr & Hw & Hcl & Hsc & Hn & Hh);
      try (cbn; lia).
    { rewrite Hpts'. reflexivity. }
    exists v'. split; [exact Hr|]. split; [exact Hw|]. split; [exact Hcl|].
    split; [|split; [rewrite Hn; cbn; lia|exact Hh]].
    rewrite Hsc. cbn [v1 ErrorWidget.scatter]. rewrite <- app_assoc.
    f_equal. unfold added_spots. cbn [seq map concat]. f_equal.
    exact Hpts'.
Qed.

Lemma added_spots_length v k :
  (2 * length (added_spots v 0 k) = k * (k + 1))%nat.
Proof.
  unfold added_spots. induction k as [|k IH]; [reflexivity|].
  rewrite seq_S, map_app, concat_app, length_app. cbn [map concat].
  rewrite app_nil_r, length_map, length_seq. cbn [Nat.add]. lia.
Qed.

Lemma added_spots_In v k p :
  In p (added_spots v 0 k) <->
  exists i, (i < k)%nat /\ p = spot_at v i.
Proof.
  unfold added_spots. rewrite in_concat. split.
  - intros (l & Hl & Hp). apply in_map_iff in Hl.
    destruct Hl as (j & <- & Hj). apply in_seq in Hj.
    apply in_map_iff in Hp. destruct Hp as (i & <- & Hi).
    apply in_seq in Hi. exists i. split; [lia|reflexivity].
  - intros (i & Hi & ->). exists (map (spot_at v) (seq 0 (S i))). split.
    + apply in_map_iff. exists i. split; [reflexivity|].
      apply in_seq. lia.
    + apply in_map. apply in_seq. lia.
Qed.

(** X16: with one color per point, [_plotMassErrors] succeeds and puts
    every sample, and nothing else, into the scatter plot; but every pass
    hands the whole list built so far to [addPoints] again, so for [n]
    samples the plot receives [n * (n + 1) / 2] entries and the scatter
    item is added [n] times. *)
Theorem plotMassErrors_spots (v : ErrorWidget.view) :
  let w := ErrorWidget.widget v in
  length (ErrorWidget._mzs w) = length (ErrorWidget._ppm w) ->
  length (ErrorWidget._color_lib v) = length (ErrorWidget._ppm w) ->
  exists v' added,
    ErrorWidget._plotMassErrors v = Ok v' /\
    ErrorWidget.widget v' = w /\
    ErrorWidget.scatter v' = ErrorWidget.scatter v ++ added /\
    (forall p, In p added <->
       exists i, (i < length (ErrorWidget._ppm w))%nat /\
                 p = spot_at v i) /\
    (2 * length added
     = length (ErrorWidget._ppm w) * (length (ErrorWidget._ppm w) + 1))%nat /\
    ErrorWidget.scatter_items v'
      = (ErrorWidget.scatter_items v + length (ErrorWidget._ppm w))%nat.
Proof.
  intros w Hm Hc. unfold ErrorWidget._plotMassErrors. fold w.
  destruct (@plot_loop_spec (length (ErrorWidget._ppm w)) 0 v [])
    as (v' & Hr & Hw & _ & Hsc & Hn & _); fold w; try lia; [reflexivity|].
  exists v', (added_spots v 0 (length (ErrorWidget._ppm w))).
  split; [exact Hr|]. split; [exact Hw|]. split; [exact Hsc|].
  split; [intro p; apply added_spots_In|].
  split; [apply added_spots_length|exact Hn].
Qed.

Lemma plotMassErrors_spots_witness :
  exists v' added,
    ErrorWidget._plotMassErrors
      (ErrorWidget.mkView (ErrorWidget.mk [1; 2; 3] [5; -6; 7] None None)
         [(0, 0, 255); (255, 0, 0); (0, 0, 255)]%Z [] 0 0) = Ok v' /\
    ErrorWidget.widget v' = ErrorWidget.mk [1; 2; 3] [5; -6; 7] None None /\
    ErrorWidget.scatter v' = [] ++ added /\
    (forall p, In p added <->
       exists i, (i < 3)%nat /\
         p = spot_at
               (ErrorWidget.mkView
                  (ErrorWidget.mk [1; 2; 3] [5; -6; 7] None None)
                  [(0, 0, 255); (255, 0, 0); (0, 0, 255)]%Z [] 0 0) i) /\
    (2 * length added = 3 * (3 + 1))%nat /\
    ErrorWidget.scatter_items v' = (0 + 3)%nat.
Proof.
  apply (@plotMassErrors_spots
    (ErrorWidget.mkView (ErrorWidget.mk [1; 2; 3] [5; -6; 7] None None)
       [(0, 0, 255); (255, 0, 0); (0, 0, 255)]%Z [] 0 0));
    reflexivity.
Defined.

Lemma plot_loop_short_colors k :
  forall a (v : ErrorWidget.view) points,
    let w := ErrorWidget.widget v in
    (a + k <= length (ErrorWidget._mzs w))%nat ->
    (a + k <= length (ErrorWidget._ppm w))%nat ->
    (a <= length (ErrorWidget._color_lib v) < a + k)%nat ->
    ErrorWidget.plot_loop v points (seq a k) = IndexError.
Proof.
  induction k as [|k IH]; intros a v points w Hm Hp Hc; [lia|].
  cbn [seq ErrorWidget.plot_loop]. fold w.
  rewrite (@getitem_in_range (ErrorWidget._mzs w) a) by lia.
  rewrite (@getitem_in_range (ErrorWidget._ppm w) a) by lia.
  cbn [bind].
  destruct (Nat.eq_dec a (length (ErrorWidget._color_lib v))) as [E|E].
  - rewrite getitem_out by lia. reflexivity.
  - rewrite (@getitem_nth _ (ErrorWidget._color_lib v) a (0, 0, 0)%Z) by lia.
    cbn [bind]. apply IH; cbn; fold w; lia.
Qed.

Lemma error_autoscale_ok (w : ErrorWidget.t) x_range :
  ErrorWidget._mzs w <> [] ->
  exists w', ErrorWidget._autoscaleYAxis w x_range = Ok w' /\
             ErrorWidget._mzs w' = ErrorWidget._mzs w /\
             ErrorWidget._ppm w' = ErrorWidget._ppm w.
Proof.
  intro Hne. unfold ErrorWidget._autoscaleYAxis.
  destruct (is_unset_range x_range).
  - destruct (data_extent_spec Hne) as (lo & hi & He & _).
    rewrite He. cbn [bind]. eexists. split; [reflexivity|]. now cbn.
  - cbn [bind]. eexists. split; [reflexivity|]. now cbn.
Qed.

(** X17: [setMassErrors] raises [ValueError] when the m/z array is empty.
    With [n >= 1] points and one color per point it succeeds, stores the
    arrays, draws one horizontal line and fills the emptied plot with
    [n * (n + 1) / 2] scatter entries; with fewer colors than points it
    raises [IndexError]. *)
Theorem setMassErrors_outcome (v : ErrorWidget.view) (mz ppm : list Q)
    (colors : list ErrorWidget.color) (x_range : axis_range) :
  (mz = [] ->
   ErrorWidget.setMassErrors v mz ppm colors x_range = ValueError) /\
  (mz <> [] -> length mz = length ppm ->
   (length colors = length ppm ->
    exists v',
      ErrorWidget.setMassErrors v mz ppm colors x_range = Ok v' /\
      ErrorWidget._mzs (ErrorWidget.widget v') = mz /\
      ErrorWidget._ppm (ErrorWidget.widget v') = ppm /\
      ErrorWidget.horizontal_lines v' = 1%nat /\
      ErrorWidget.scatter_items v' = length ppm /\
      (2 * length (ErrorWidget.scatter v')
       = length ppm * (length ppm + 1))%nat) /\
   ((length colors < length ppm)%nat ->
    ErrorWidget.setMassErrors v mz ppm colors x_range = IndexError)).
Proof.
  split.
  - intros ->. reflexivity.
  - intros Hne Hlen.
    unfold ErrorWidget.setMassErrors, ErrorWidget.redraw.
    cbn [ErrorWidget.widget ErrorWidget._mzs ErrorWidget._color_lib
         ErrorWidget.scatter ErrorWidget.scatter_items
         ErrorWidget.horizontal_lines].
    destruct (amin_spec Hne) as (lo & -> & _).
    destruct (amax_spec Hne) as (hi & -> & _). cbn [bind].
    set (w0 := ErrorWidget.mk mz ppm _ _).
    destruct (@error_autoscale_ok w0 x_range Hne) as (w' & -> & Hm & Hp).
    cbn [bind]. cbn in Hm, Hp.
    unfold ErrorWidget._plotMassErrors, ErrorWidget._plotHorizontalLine.
    cbn [ErrorWidget.widget ErrorWidget._color_lib ErrorWidget.scatter
         ErrorWidget.scatter_items ErrorWidget.horizontal_lines].
    rewrite Hp. split.
    + intro Hc.
      destruct (@plot_loop_spec (length ppm) 0
                  (ErrorWidget.mkView w' colors [] 0 1) [])
        as (v' & Hr & Hw & _ & Hsc & Hn & Hh);
        cbn [ErrorWidget.widget ErrorWidget._color_lib];
        rewrite ?Hm, ?Hp; try lia; [reflexivity|].
      exists v'. split; [exact Hr|].
      rewrite Hw. cbn [ErrorWidget.widget].
      split; [exact Hm|]. split; [exact Hp|]. split; [exact Hh|].
      split; [rewrite Hn; reflexivity|].
      rewrite Hsc. cbn [ErrorWidget.scatter app].
      apply added_spots_length.
    + intro Hc. apply plot_loop_short_colors;
        cbn [ErrorWidget.widget ErrorWidget._color_lib];
        rewrite ?Hm, ?Hp; lia.
Qed.

Lemma setMassErrors_outcome_witness :
  (exists v',
     ErrorWidget.setMassErrors
       (ErrorWidget.mkView (ErrorWidget.mk [] [] None None) [] [] 0 0)
       [1; 2; 3] [5; -6; 7] [(0, 0, 255); (255, 0, 0); (0, 0, 255)]%Z
       (1, 3) = Ok v' /\
     ErrorWidget._mzs (ErrorWidget.widget v') = [1; 2; 3] /\
     ErrorWidget._ppm (ErrorWidget.widget v') = [5; -6; 7] /\
     ErrorWidget.horizontal_lines v' = 1%nat /\
     ErrorWidget.scatter_items v' = 3%nat /\
     (2 * length (ErrorWidget.scatter v') = 3 * (3 + 1))%nat) /\
  ErrorWidget.setMassErrors
    (ErrorWidget.mkView (ErrorWidget.mk [] [] None None) [] [] 0 0)
    [] [] [] (0, 1) = ValueError.
Proof.
  split.
  - apply (proj2 (@setMassErrors_outcome
      (ErrorWidget.mkView (ErrorWidget.mk [] [] None None) [] [] 0 0)
      [1; 2; 3] [5; -6; 7] [(0, 0, 255); (255, 0, 0); (0, 0, 255)]%Z
      (1, 3)) ltac:(discriminate) eq_refl); reflexivity.
  - apply (proj1 (@setMassErrors_outcome
      (ErrorWidget.mkView (ErrorWidget.mk [] [] None None) [] [] 0 0)
      [] [] [] (0, 1))). reflexivity.
Defined.

(** ** The label primitives *)

(** X18: [_remove_label] raises [KeyError] for an id that has no label;
    for an id that has one it takes that label out of the collection and
    its text item out of the plot, and leaves the labels under the other
    ids and the other items as they are. *)
Theorem remove_label_outcome (self : TICWidget.t) (label_id : nat) :
  (dict_get (_peak_labels self) label_id = None ->
   _remove_label self label_id = KeyError) /\
  (forall it, dict_get (_peak_labels self) label_id = Some it ->
   exists s',
     _remove_label self label_id = Ok s' /\
     dict_get (_peak_labels s') label_id = None /\
     (forall k, k <> label_id ->
        dict_get (_peak_labels s') k = dict_get (_peak_labels self) k) /\
     (forall i, In i (items s') <->
        In i (items self) /\ item_id i <> item_id it) /\
     same_data self s').
Proof.
  split.
  - intro H. unfold _remove_label. now rewrite H.
  - intros it H. unfold _remove_label. rewrite H.
    eexists. split; [reflexivity|]. cbn.
    split; [apply dict_get_del_same|].
    split; [intros k Hk; now apply dict_get_del_other|].
    split; [|unfold same_data; cbn; repeat split].
    intro i. rewrite filter_In, negb_true_iff, Nat.eqb_neq. reflexivity.
Qed.

Lemma remove_label_outcome_witness :
  exists s',
    _remove_label sample_redrawn 2 = Ok s' /\
    dict_get (_peak_labels s') 2%nat = None /\
    dict_get (_peak_labels s') 0%nat
      = dict_get (_peak_labels sample_redrawn) 0%nat.
Proof.
  destruct (proj2 (remove_label_outcome sample_redrawn 2)
              (mkText 2 100 100 4) eq_refl)
    as (s' & Hr & Hnone & Hother & _).
  exists s'. split; [exact Hr|]. split; [exact Hnone|].
  apply Hother. discriminate.
Defined.

Section ClashFacts.
Variable Rect : Type.
Variable deviceRect : TextItem -> Rect.
Variable intersects : Rect -> Rect -> bool.
Variable pixel_width : Q.
Variable arith : float_ops.

(** X19: on an empty collection [_label_clashes] answers false for every
    id.  On a non-empty one it raises [KeyError] for an id that has no
    label, and for an id that has one it answers whether that label
    collides with a label under another id (rectangles that intersect,
    or a computed distance in x below the computed limit); a label alone
    in the collection never clashes. *)
Theorem label_clashes_outcome (self : TICWidget.t) (label_id : nat) :
  (_peak_labels self = [] ->
   _label_clashes deviceRect intersects pixel_width arith self label_id
     = Ok false) /\
  (_peak_labels self <> [] ->
   dict_get (_peak_labels self) label_id = None ->
   _label_clashes deviceRect intersects pixel_width arith self label_id
     = KeyError) /\
  (forall new, dict_get (_peak_labels self) label_id = Some new ->
   exists b,
     _label_clashes deviceRect intersects pixel_width arith self label_id
       = Ok b /\
     (b = true <->
      clashes_with deviceRect intersects pixel_width arith (_peak_labels self)
        label_id new) /\
     (_peak_labels self = [(label_id, new)] -> b = false)).
Proof.
  unfold _label_clashes. split; [|split].
  - intros ->. reflexivity.
  - intros Hne Hnone. destruct (_peak_labels self); [congruence|].
    now rewrite Hnone.
  - intros new Hsome.
    destruct (_peak_labels self) as [|e d] eqn:E; [discriminate Hsome|].
    rewrite Hsome. eexists. split; [reflexivity|].
    split; [apply clash_loop_spec|].
    intro Hone.
    destruct (clash_loop deviceRect intersects pixel_width arith
                (length (e :: d)) label_id new (e :: d) false) eqn:Ec;
      [|reflexivity].
    apply clash_loop_spec in Ec. destruct Ec as (k & o & Hin & Hk & _).
    rewrite Hone in Hin. destruct Hin as [Hin|[]]. congruence.
Qed.
End ClashFacts.

Lemma label_clashes_outcome_witness :
  _label_clashes (fun _ : TextItem => tt) (fun _ _ => false) 1 exact_ops
    sample_widget 7 = Ok false /\
  _label_clashes (fun _ : TextItem => tt) (fun _ _ => false) 1 exact_ops
    sample_redrawn 1 = KeyError.
Proof.
  split.
  - apply (proj1 (@label_clashes_outcome unit (fun _ => tt)
                    (fun _ _ => false) 1 exact_ops sample_widget 7)).
    reflexivity.
  - apply (proj1 (proj2 (@label_clashes_outcome unit (fun _ => tt)
                    (fun _ _ => false) 1 exact_ops sample_redrawn 1)));
      [discriminate|reflexivity].
Defined.

(** ** The sequence widget *)

Module SeqFacts.
Import SequenceIonsWidget.
Import String.StringSyntax.
Local Open Scope string_scope.
Local Open Scope Q_scope.

Lemma max_by_spec (f : nat -> nat) keys :
  forall best,
    let m := max_by f best keys in
    (m = best \/ In m keys) /\ (f best <= f m)%nat /\
    forall k, In k keys -> (f k <= f m)%nat.
Proof.
  induction keys as [|k rest IH]; intro best; cbn [max_by].
  - split; [now left|]. split; [lia|]. intros k [].
  - destruct (f best <? f k)%nat eqn:E.
    + apply Nat.ltb_lt in E.
      destruct (IH k) as (Hin & Hle & Hall).
      split; [right; destruct Hin as [->|H]; [now left|now right]|].
      split; [lia|].
      intros k' [<-|Hk']; [exact Hle|now apply Hall].
    + apply Nat.ltb_ge in E.
      destruct (IH best) as (Hin & Hle & Hall).
      split; [destruct Hin as [H|H]; [now left|right; now right]|].
      split; [exact Hle|].
      intros k' [<-|Hk']; [lia|now apply Hall].
Qed.

Lemma dict_get_key {V} (d : dict V) k v :
  dict_get d k = Some v -> In k (map fst d).
Proof.
  induction d as [|[k0 v0] d IH]; simpl; [discriminate|].
  destruct (k0 =? k)%nat eqn:E; [apply Nat.eqb_eq in E; now left|].
  intro H. right. now apply IH.
Qed.

Lemma dict_get_of_key {V} (d : dict V) k :
  In k (map fst d) -> exists v, dict_get d k = Some v.
Proof.
  induction d as [|[k1 v1] d IH]; simpl; [intros []|].
  destruct (k1 =? k)%nat eqn:E; [now exists v1|].
  intros [H|H]; [apply Nat.eqb_neq in E; congruence|now apply IH].
Qed.

(** [max_ion] is the size of the largest stack of the dict. *)
Lemma max_ion_bound (d : ions) k v :
  dict_get d k = Some v -> (length v <= max_ion d)%nat.
Proof.
  intro H. assert (Hk := dict_get_key _ _ H).
  unfold max_ion. destruct d as [|[k0 v0] rest]; [destruct Hk|].
  destruct (max_by_spec (stack_size ((k0, v0) :: rest)) (map fst rest) k0)
    as (_ & Hbest & Hall).
  assert (Hs : stack_size ((k0, v0) :: rest) k = length v)
    by (unfold stack_size; now rewrite H).
  rewrite <- Hs. simpl in Hk. destruct Hk as [<-|Hk]; [exact Hbest|].
  now apply Hall.
Qed.

Lemma max_ion_attained (d : ions) :
  d <> [] -> exists k v, dict_get d k = Some v /\ max_ion d = length v.
Proof.
  destruct d as [|[k0 v0] rest]; [congruence|]. intros _.
  unfold max_ion.
  destruct (max_by_spec (stack_size ((k0, v0) :: rest)) (map fst rest) k0)
    as (Hin & _).
  set (m := max_by _ _ _) in *.
  assert (Hm : In m (map fst ((k0, v0) :: rest)))
    by (simpl; destruct Hin as [->|H]; [now left|now right]).
  assert (Hget := dict_get_of_key _ _ Hm).
  destruct Hget as (v & Hv). exists m, v. split; [exact Hv|].
  unfold stack_size. now rewrite Hv.
Qed.

(** X20: [_resize] makes room for the largest stacks of ions: with a
    non-negative ion height, [SUFFIX_HEIGHT] covers every suffix stack
    plus 5 and [HEIGHT] covers the peptide, any prefix stack plus 15 and
    any suffix stack plus 5; and both are attained by the largest stacks
    when ions are given. *)
Theorem resize_fits_stacks (height_pep height_ion : Q) (cls : sizes)
    (self : t) :
  0 <= height_ion ->
  let cls' := _resize height_pep height_ion cls self in
  let stack (l : list String.string) :=
    height_ion * inject_Z (Z.of_nat (length l)) in
  (forall k v, dict_get (suffix (_pep self)) k = Some v ->
     stack v + 5 <= SUFFIX_HEIGHT cls') /\
  (forall ku u kv v,
     dict_get (prefix (_pep self)) ku = Some u ->
     dict_get (suffix (_pep self)) kv = Some v ->
     height_pep + (stack u + 15) + (stack v + 5) <= HEIGHT cls') /\
  (suffix (_pep self) <> [] -> prefix (_pep self) <> [] ->
   exists ku u kv v,
     dict_get (prefix (_pep self)) ku = Some u /\
     dict_get (suffix (_pep self)) kv = Some v /\
     SUFFIX_HEIGHT cls' = stack v + 5 /\
     HEIGHT cls' = height_pep + (stack u + 15) + (stack v + 5)).
Proof.
  intros Hh cls' stack.
  assert (Hmono : forall a b, (a <= b)%nat ->
            height_ion * inject_Z (Z.of_nat a)
              <= height_ion * inject_Z (Z.of_nat b)).
  { intros a b Hab. rewrite !(Qmult_comm height_ion).
    apply Qmult_le_compat_r; [|exact Hh].
    rewrite <- Zle_Qle. lia. }
  split; [|split].
  - intros k v Hv. unfold cls', _resize, stack. cbn [SUFFIX_HEIGHT].
    apply Qplus_le_compat; [|apply Qle_refl].
    apply Hmono. now apply (@max_ion_bound _ k v).
  - intros ku u kv v Hu Hv. unfold cls', _resize, stack. cbn [HEIGHT].
    apply Qplus_le_compat; [apply Qplus_le_compat; [apply Qle_refl|]|].
    + apply Qplus_le_compat; [|apply Qle_refl].
      apply Hmono. now apply (@max_ion_bound _ ku u).
    + apply Qplus_le_compat; [|apply Qle_refl].
      apply Hmono. now apply (@max_ion_bound _ kv v).
  - intros Hs Hp.
    destruct (max_ion_attained Hs) as (kv & v & Hv & Ev).
    destruct (max_ion_attained Hp) as (ku & u & Hu & Eu).
    exists ku, u, kv, v. split; [exact Hu|]. split; [exact Hv|].
    unfold cls', _resize, stack. cbn [SUFFIX_HEIGHT HEIGHT].
    rewrite Ev, Eu. split; reflexivity.
Qed.

Lemma resize_fits_stacks_witness :
  let pep :=
    mkPep "PEP" 3 [(1%nat, ["y1"; "z1"])] [(2%nat, ["b2"])] in
  let cls' := _resize 34 12 class_sizes (mk pep (0, 0) 0) in
  (forall k v, dict_get (suffix pep) k = Some v ->
     12 * inject_Z (Z.of_nat (length v)) + 5 <= SUFFIX_HEIGHT cls') /\
  SUFFIX_HEIGHT cls' == 29.
Proof.
  intros pep cls'. split.
  - apply (@resize_fits_stacks 34 12 class_sizes (mk pep (0, 0) 0)).
    discriminate.
  - reflexivity.
Defined.

Lemma width_formula (n : nat) :
  inject_Z (Z.of_nat n) * 18 + (inject_Z (Z.of_nat n) - 1) * 8
  == 26 * inject_Z (Z.of_nat n) - 8.
Proof. ring. Qed.

(** X21: [setPeptide] stores the sequence with its length and asks for
    the class-wide sizes as minimum size and fixed height.  For a
    non-empty sequence of [n] letters the width becomes [26 * n - 8]
    (18 per letter, 8 between letters); for the empty sequence the width
    is not recomputed and the previous one stays. *)
Theorem setPeptide_width (height_pep height_ion : Q) (cls : sizes)
    (self : t) (seq : String.string) :
  let st' := setPeptide height_pep height_ion (cls, self) seq in
  let n := String.length seq in
  sequence (_pep (snd st')) = seq /\
  seqLength (_pep (snd st')) = n /\
  minimumSize (snd st') = (WIDTH (fst st'), HEIGHT (fst st')) /\
  fixedHeight (snd st') = HEIGHT (fst st') /\
  (n <> 0%nat -> WIDTH (fst st') == 26 * inject_Z (Z.of_nat n) - 8) /\
  (n = 0%nat -> WIDTH (fst st') = WIDTH cls).
Proof.
  intros st' n. unfold st', setPeptide, updateWindowSize, _resize.
  cbn [fst snd _pep setSequence sequence seqLength minimumSize fixedHeight
       WIDTH HEIGHT]. fold n.
  repeat split.
  - intro Hn. destruct (n =? 0)%nat eqn:E;
      [apply Nat.eqb_eq in E; contradiction|]. apply width_formula.
  - intros ->. reflexivity.
Qed.

Lemma length_list_ascii (s : String.string) :
  length (String.list_ascii_of_string s) = String.length s.
Proof. induction s; simpl; congruence. Qed.

Lemma keys_of_sequence (s : String.string) :
  map fst (dict_of_sequence s) = seq 0 (String.length s).
Proof.
  unfold dict_of_sequence.
  assert (H : forall (xs : list nat) (ys : list Ascii.ascii),
            length xs = length ys -> map fst (combine xs ys) = xs).
  { induction xs as [|x xs IH]; intros [|y ys] Hl; simpl in *;
      try reflexivity; try discriminate. f_equal. apply IH. lia. }
  apply H. now rewrite length_seq, length_list_ascii.
Qed.

Lemma getitem_seq n k : (k < n)%nat -> getitem (seq 0 n) k = Ok k.
Proof.
  intro Hk. rewrite (@getitem_nth _ (seq 0 n) k 0%nat)
    by (now rewrite length_seq).
  now rewrite seq_nth.
Qed.

Lemma getReverseIndex_value (s : String.string) (i : nat) :
  (i < String.length s)%nat ->
  _getReverseIndex i (dict_of_sequence s)
    = Ok (if (i =? 0)%nat then 0%nat else (String.length s - i)%nat).
Proof.
  intro Hi. unfold _getReverseIndex. rewrite keys_of_sequence, length_seq.
  destruct (i =? 0)%nat eqn:E; [reflexivity|]. apply Nat.eqb_neq in E.
  replace (i <=? String.length s)%nat with true
    by (symmetry; apply Nat.leb_le; lia).
  apply getitem_seq. lia.
Qed.

(** X22: for the positions of a sequence of [n] letters,
    [_getReverseIndex] maps 0 to 0 and every other position [i] to
    [n - i]; the result is again a position, and applying the function
    twice gives the position back.  An index beyond [n] raises
    [IndexError]. *)
Theorem getReverseIndex_involution (s : String.string) (i : nat) :
  let n := String.length s in
  ((i < n)%nat ->
   exists r,
     _getReverseIndex i (dict_of_sequence s) = Ok r /\ (r < n)%nat /\
     (i = 0%nat -> r = 0%nat) /\ (i <> 0%nat -> r = (n - i)%nat) /\
     _getReverseIndex r (dict_of_sequence s) = Ok i) /\
  ((n < i)%nat ->
   _getReverseIndex i (dict_of_sequence s) = IndexError).
Proof.
  intro n. split.
  - intro Hi. rewrite (getReverseIndex_value s Hi). fold n.
    destruct (i =? 0)%nat eqn:E.
    + apply Nat.eqb_eq in E. subst i. exists 0%nat.
      split; [reflexivity|]. split; [exact Hi|]. split; [reflexivity|].
      split; [congruence|]. now rewrite (getReverseIndex_value s Hi).
    + apply Nat.eqb_neq in E. exists (n - i)%nat.
      split; [reflexivity|]. split; [lia|]. split; [contradiction|].
      split; [reflexivity|].
      rewrite getReverseIndex_value by (fold n; lia). fold n.
      replace (n - i =? 0)%nat with false
        by (symmetry; apply Nat.eqb_neq; lia).
      f_equal. lia.
  - intro Hi. unfold _getReverseIndex.
    rewrite keys_of_sequence, length_seq. fold n.
    replace (i =? 0)%nat with false by (symmetry; apply Nat.eqb_neq; lia).
    now replace (i <=? n)%nat with false
      by (symmetry; apply Nat.leb_gt; lia).
Qed.

Lemma getReverseIndex_involution_witness :
  exists r,
    _getReverseIndex 1 (dict_of_sequence "PEPTIDE") = Ok r /\ (r < 7)%nat /\
    (1 = 0 -> r = 0)%nat /\ (1 <> 0 -> r = 7 - 1)%nat /\
    _getReverseIndex r (dict_of_sequence "PEPTIDE") = Ok 1%nat.
Proof.
  apply (proj1 (getReverseIndex_involution "PEPTIDE" 1)). simpl. lia.
Defined.

(** X23: [clear] empties the sequence and both ion dicts but leaves
    [seqLength] and the class-wide sizes as they are; so after a peptide
    was set and cleared, the next [updateWindowSize] still computes the
    width of the cleared sequence, while the height falls back to the one
    for stacks of a single ion. *)
Theorem clear_keeps_width (height_pep height_ion : Q) (st : sizes * t)
    (seq : String.string) :
  String.length seq <> 0%nat ->
  let st1 := setPeptide height_pep height_ion st seq in
  let st2 := clear st1 in
  let st3 := updateWindowSize height_pep height_ion st2 in
  sequence (_pep (snd st2)) = String.EmptyString /\
  suffix (_pep (snd st2)) = [] /\ prefix (_pep (snd st2)) = [] /\
  seqLength (_pep (snd st2)) = String.length seq /\
  fst st2 = fst st1 /\
  WIDTH (fst st3) = WIDTH (fst st1) /\
  HEIGHT (fst st3)
    = height_pep + (height_ion * 1 + 15) + (height_ion * 1 + 5).
Proof.
  intros Hn st1 st2 st3. destruct st as [cls self].
  unfold st3, st2, st1, setPeptide, updateWindowSize, clear, _resize.
  cbn [fst snd _pep setSequence sequence seqLength suffix prefix WIDTH
       HEIGHT max_ion].
  destruct (String.length seq =? 0)%nat eqn:E;
    [apply Nat.eqb_eq in E; contradiction|].
  repeat split.
Qed.

Lemma clear_keeps_width_witness :
  let st1 := setPeptide 34 12 (class_sizes, mk initUI_pep (0, 0) 0) "PEP" in
  let st3 := updateWindowSize 34 12 (clear st1) in
  WIDTH (fst st3) = WIDTH (fst st1) /\ WIDTH (fst st1) == 70.
Proof.
  intros st1 st3. split.
  - apply (@clear_keeps_width 34 12 (class_sizes, mk initUI_pep (0, 0) 0)
             "PEP"). discriminate.
  - reflexivity.
Defined.
End SeqFacts.
